(** * moldesign.structure.molecule: topology, property cache and model
      coordination of [Molecule], embedded and verified.

    The development follows [src/moldesign/structure/molecule.py].  Python
    objects with identity (atoms) are keys of finite maps; dictionaries are
    [gmap]s; methods of [Molecule] are functions on an explicit molecule
    state; a raised exception is the [Raise] outcome of [result]. *)

From stdpp Require Import gmap strings list fin_maps pretty sorting.
From Stdlib Require Import ZArith Ascii.
From Stdlib Require QArith.

Open Scope Z_scope.

(** ** Exceptions and outcomes *)

Inductive exn : Type :=
| AssertionError (msg : string)
| KeyError
| AttributeError
| IndexError
| NotImplementedError
| NotCalculatedError (msg hint : string)
| ModelError (msg : string).

Inductive result (A : Type) : Type :=
| Ok (a : A)
| Raise (e : exn).
Arguments Ok {A} a.
Arguments Raise {A} e.

#[global] Instance result_ret : MRet result := λ A a, Ok a.
#[global] Instance result_bind : MBind result := λ A B f r,
  match r with
  | Ok a => f a
  | Raise e => Raise e
  end.

Definition succeeds {A} (r : result A) : Prop := ∃ a, r = Ok a.
Definition fails {A} (r : result A) : Prop := ∃ e, r = Raise e.

(** [for x in xs: acc = body(x, acc)], stopping at the first exception. *)
Fixpoint for_each {A S : Type} (body : A → S → result S) (xs : list A) (acc : S)
  : result S :=
  match xs with
  | [] => Ok acc
  | x :: rest => acc' ← body x acc; for_each body rest acc'
  end.

(** [d[k]] on a Python dict. *)
Definition getitem `{Countable K} {V} (d : gmap K V) (k : K) : result V :=
  match d !! k with
  | Some v => Ok v
  | None => Raise KeyError
  end.

(** ** Atoms and the bond graph *)

(** Modelled from the spec: the Atom class, which is not under src/.  An
    atom has an identity and an atomic number; atoms are compared and
    hashed by identity.  Its mutable adjacency map is kept apart, as the
    entry of the atom in the maps below. *)
Record Atom : Type := mkAtom { atom_id : nat; atnum : Z }.

#[global] Instance Atom_eq_dec : EqDecision Atom.
Proof. solve_decision. Defined.

#[global] Instance Atom_countable : Countable Atom.
Proof.
  refine (inj_countable' (λ a, (atom_id a, atnum a)) (λ p, mkAtom p.1 p.2) _).
  by intros [].
Defined.

(** [atom.bond_graph]: neighbor -> bond order. *)
Abbreviation Adjacency := (gmap Atom Z).
(** [mol.bond_graph]: atom -> that atom's adjacency dict.  It is the same
    dict object as the atom's own, so an update of [bonds[nbr]] is an update
    of [nbr.bond_graph]; two atoms never share one dict. *)
Abbreviation BondGraph := (gmap Atom (gmap Atom Z)).

(** The keys a [for k in d] loop visits, in some order; the proofs below
    use only which keys are visited. *)
Definition keys {V} (d : gmap Atom V) : list Atom := elements (dom d).

Section BuildBonds.
(** [bond_graph_of atom] is [atom.bond_graph] when the atom has a bonds
    attribute that is not [None]. *)
Variable bond_graph_of : Atom → option Adjacency.

(** First pass of [_build_bonds]: create initial bonds. *)
Fixpoint initial_bonds (atoms : list Atom) (bonds : BondGraph) : result BondGraph :=
  match atoms with
  | [] => Ok bonds
  | atom :: rest =>
      if decide (atom ∈ dom bonds)
      then Raise (AssertionError "Atom appears twice in this list")
      else initial_bonds rest (<[atom := default ∅ (bond_graph_of atom)]> bonds)
  end.

(** Body of the inner loop of the second pass. *)
Definition record_bond (atom nbr : Atom) (bonds : BondGraph) : result BondGraph :=
  nbr_bonds ← getitem bonds nbr;
  atom_bonds ← getitem bonds atom;
  order ← getitem atom_bonds nbr;
  match nbr_bonds !! atom with
  | Some back =>
      if decide (back = order) then Ok bonds else Raise (AssertionError "")
  | None => Ok (<[nbr := <[atom := order]> nbr_bonds]> bonds)
  end.

(** [for nbr in bonds[atom]: ...] *)
Definition record_bonds_of (atom : Atom) (bonds : BondGraph) : result BondGraph :=
  atom_bonds ← getitem bonds atom;
  for_each (record_bond atom) (keys atom_bonds) bonds.

Definition _build_bonds (atoms : list Atom) : result BondGraph :=
  bonds ← initial_bonds atoms ∅;
  for_each record_bonds_of atoms bonds.
End BuildBonds.

(** [order g a b = Some k]: [a]'s adjacency map in [g] has [b] with order [k]. *)
Definition order (g : BondGraph) (a b : Atom) : option Z :=
  adj ← g !! a; adj !! b.

(** ** The molecule state *)

Inductive ConstraintKind : Type :=
| FixedPosition | DistanceConstraint | AngleConstraint | DihedralConstraint.

(** What [set_energy_model] prints on standard output. *)
Inductive Output : Type :=
| ChargeWarning (mol_charge model_charge : Z).

(** Modelled from the spec: the Residue class, which is not under src/; a
    named grouping of atoms with a classification tag, [residue.type]. *)
Record Residue : Type := mkResidue { res_name : string; res_type : string }.

(** Modelled from the spec: the integrator, a collaborator outside src/,
    with its [_prepped] flag and the options of [integrator.params] that
    the molecule reads.  [params.get(key, False)] reads an absent key as
    false; the ['constraints'] key may be absent. *)
Record Integrator : Type := mkIntegrator {
  remove_translation : option bool;
  remove_rotation : option bool;
  int_constraints : option (list string);
  int_prepped : bool }.

Section Model.
(** Coordinates and the other unit-tagged quantities come from
    [moldesign.units], which is not under src/: they are types of their
    own here, and two coordinates are either equal or not, with nothing
    that differs from itself. *)
Context {coord Value : Type} `{EqDecision coord}.

(** [MolecularProperties], a [DotDict] (a dict whose keys are attributes
    too): the ['positions'] key, which the constructor always adds, is the
    field [positions]; every other key is in [values]. *)
Record MolecularProperties : Type := mkProps {
  positions : list coord;
  values : gmap string Value }.

(** A property mapping as an energy model returns it: ['positions'] may
    be missing from it. *)
Record PropertyDict : Type := mkDict {
  dict_positions : option (list coord);
  dict_values : gmap string Value }.

Inductive PropValue : Type :=
| PositionsValue (xs : list coord)
| OtherValue (v : Value).

(** [name in props] and [props[name]]. *)
Definition props_keys (p : MolecularProperties) : gset string :=
  {[ "positions" ]} ∪ dom (values p).
Definition props_contains (p : MolecularProperties) (name : string) : bool :=
  bool_decide (name ∈ props_keys p).
Definition props_lookup (p : MolecularProperties) (name : string) : option PropValue :=
  if decide (name = "positions") then Some (PositionsValue (positions p))
  else OtherValue <$> values p !! name.

Definition as_dict (p : MolecularProperties) : PropertyDict :=
  mkDict (Some (positions p)) (values p).

(** [props.update(d)]: every key of [d] overwrites the one of [props]. *)
Definition dict_update (p : MolecularProperties) (d : PropertyDict) : MolecularProperties :=
  mkProps (default (positions p) (dict_positions d)) (dict_values d ∪ values p).

(** What [energy_model.calculate] hands back: a plain mapping, or a job
    with a [wait] method whose [result] is the mapping. *)
Inductive Job : Type :=
| PlainResult (r : PropertyDict)
| JobHandle (r : PropertyDict).

Definition job_result (j : Job) : PropertyDict :=
  match j with PlainResult r => r | JobHandle r => r end.

(** Modelled from the spec: the energy model, a collaborator outside src/:
    its [DEFAULT_PROPERTIES], its [_prepped] flag, the charge option of its
    [params] and its [calculate], which sees the molecule it is bound to
    through the current positions.  [em_charge] is [None] when [params] has
    no charge key, [Some None] when the key is there and unset. *)
Record EnergyModel : Type := mkEnergyModel {
  DEFAULT_PROPERTIES : list string;
  em_charge : option (option Z);
  em_prepped : bool;
  em_calculate : list coord → gset string → result Job }.

(** Modelled from the spec: the constraint classes of [moldesign.geom],
    which are not under src/; a constraint has a kind, its atoms, a target
    value and the count [constraint.dof] of degrees of freedom it removes. *)
Record Constraint : Type := mkConstraint {
  c_kind : ConstraintKind;
  c_atoms : list Atom;
  c_value : Value;
  dof : Z }.

Record Molecule : Type := mkMolecule {
  atoms : list Atom;
  bond_graph : BondGraph;
  residues : list Residue;
  is_biomolecule : bool;
  ndims : Z;
  num_bonds : Z;
  _positions : list coord;
  _dof : option Z;
  charge : Z;
  constraints : list Constraint;
  energy_model : option EnergyModel;
  integrator : option Integrator;
  _properties : MolecularProperties }.

Definition num_atoms (m : Molecule) : Z := Z.of_nat (length (atoms m)).

Definition with_properties (m : Molecule) (p : MolecularProperties) : Molecule :=
  mkMolecule (atoms m) (bond_graph m) (residues m) (is_biomolecule m) (ndims m)
    (num_bonds m) (_positions m) (_dof m) (charge m) (constraints m)
    (energy_model m) (integrator m) p.
Definition with_energy_model (m : Molecule) (em : option EnergyModel) : Molecule :=
  mkMolecule (atoms m) (bond_graph m) (residues m) (is_biomolecule m) (ndims m)
    (num_bonds m) (_positions m) (_dof m) (charge m) (constraints m)
    em (integrator m) (_properties m).
Definition with_integrator (m : Molecule) (i : option Integrator) : Molecule :=
  mkMolecule (atoms m) (bond_graph m) (residues m) (is_biomolecule m) (ndims m)
    (num_bonds m) (_positions m) (_dof m) (charge m) (constraints m)
    (energy_model m) i (_properties m).
Definition with_constraints (m : Molecule) (cs : list Constraint) : Molecule :=
  mkMolecule (atoms m) (bond_graph m) (residues m) (is_biomolecule m) (ndims m)
    (num_bonds m) (_positions m) (_dof m) (charge m) cs
    (energy_model m) (integrator m) (_properties m).
Definition with_atoms (m : Molecule) (l : list Atom) : Molecule :=
  mkMolecule l (bond_graph m) (residues m) (is_biomolecule m) (ndims m)
    (num_bonds m) (_positions m) (_dof m) (charge m) (constraints m)
    (energy_model m) (integrator m) (_properties m).
(** [mol.positions = xs] *)
Definition set_positions (m : Molecule) (xs : list coord) : Molecule :=
  mkMolecule (atoms m) (bond_graph m) (residues m) (is_biomolecule m) (ndims m)
    (num_bonds m) xs (_dof m) (charge m) (constraints m)
    (energy_model m) (integrator m) (_properties m).
(** [mol.dynamic_dof = val] *)
Definition set_dynamic_dof (m : Molecule) (val : Z) : Molecule :=
  mkMolecule (atoms m) (bond_graph m) (residues m) (is_biomolecule m) (ndims m)
    (num_bonds m) (_positions m) (Some val) (charge m) (constraints m)
    (energy_model m) (integrator m) (_properties m).

(** *** MolecularProperties *)

(** [MolecularProperties(mol)]: only a copy of the current positions. *)
Definition new_properties (m : Molecule) : MolecularProperties :=
  mkProps (_positions m) ∅.

(** [np.array_equal(self.positions, mol.positions)] *)
Definition geometry_matches (p : MolecularProperties) (m : Molecule) : bool :=
  bool_decide (positions p = _positions m).

(** *** MolPropertyMixin *)

(** The [properties] getter: a stale snapshot is replaced in place. *)
Definition properties (m : Molecule) : MolecularProperties * Molecule :=
  if geometry_matches (_properties m) m then (_properties m, m)
  else (new_properties m, with_properties m (new_properties m)).

(** The [properties] setter. *)
Definition properties_setter (m : Molecule) (val : MolecularProperties) : result Molecule :=
  if geometry_matches val m then Ok (with_properties m val)
  else Raise (AssertionError
         "Can't set properties - they're for a different molecular geometry").

Definition not_calculated (name : string) : exn :=
  NotCalculatedError
    ("The '" +:+ name +:+ "' property hasn't been calculated yet. ")
    ("Calculate it with the .calc_" +:+ name +:+ "() method").

(** [get_property]: the molecule is returned too, since the getter may
    have replaced the snapshot before the exception is raised. *)
Definition get_property (m : Molecule) (name : string) : result PropValue * Molecule :=
  let '(p, m) := properties m in
  if props_contains p name then
    let '(p, m) := properties m in
    if bool_decide (positions p = _positions m) then
      let '(p, m) := properties m in
      match props_lookup p name with
      | Some v => (Ok v, m)
      | None => (Raise KeyError, m)
      end
    else (Raise (not_calculated name), m)
  else (Raise (not_calculated name), m).

(** [update_properties]: [self.properties] is never [None], so the first
    branch is dead; [update] is called with no argument. *)
Definition update_properties (m : Molecule) (props : MolecularProperties) : result Molecule :=
  let '(_, m) := properties m in
  if bool_decide (_positions m = positions props) then
    let '(p, m) := properties m in
    Ok (with_properties m (dict_update p (mkDict None ∅)))
  else Raise (AssertionError
         "The molecular geometry does not correspond to these properties").

Definition dynamic_dof (m : Molecule) : Z :=
  match _dof m with
  | Some d => d
  | None =>
      let df := ndims m in
      let df :=
        match integrator m with
        | None => df
        | Some integ =>
            let df := if default false (remove_translation integ) then df - 3 else df in
            let df :=
              if default false (remove_rotation integ)
              then (if decide (num_atoms m > 2) then df - 2 else df)
              else df in
            match int_constraints integ with
            | None => df
            | Some cs =>
                let hbonds := bool_decide ("hbonds" ∈ cs) in
                let df :=
                  if hbonds
                  then fold_left
                         (λ df atom, if decide (atnum atom = 1) then df - 1 else df)
                         (atoms m) df
                  else df in
                if bool_decide ("water" ∈ cs)
                then fold_left
                       (λ df residue,
                          if decide (res_type residue = "water")
                          then (if hbonds then df - 7 else df - 9)
                          else df)
                       (residues m) df
                else df
            end
        end in
      fold_left (λ df constraint, df - dof constraint) (constraints m) df
  end.

(** *** Molecule: model coordination *)

Definition _reset_methods (m : Molecule) : Molecule :=
  let m :=
    match energy_model m with
    | Some em =>
        with_energy_model m
          (Some (mkEnergyModel (DEFAULT_PROPERTIES em) (em_charge em) false (em_calculate em)))
    | None => m
    end in
  match integrator m with
  | Some i =>
      with_integrator m
        (Some (mkIntegrator (remove_translation i) (remove_rotation i) (int_constraints i) false))
  | None => m
  end.

Definition set_integrator (m : Molecule) (i : Integrator) : Molecule :=
  with_integrator m
    (Some (mkIntegrator (remove_translation i) (remove_rotation i) (int_constraints i) false)).

(** [set_energy_model]: the molecule keeps a reference to the model, so the
    later writes to [model.params.charge] and [model._prepped] show in
    [mol.energy_model]. *)
Definition set_energy_model (m : Molecule) (model : EnergyModel)
  : result (Molecule * list Output) :=
  let m := with_energy_model m (Some model) in
  m ← properties_setter m (new_properties m);
  let '(chg, out) :=
    match em_charge model with
    | None => (None, [])
    | Some None => (Some (Some (charge m)), [])
    | Some (Some q) =>
        if decide (q ≠ charge m) then (Some (Some q), [ChargeWarning (charge m) q])
        else (Some (Some q), [])
    end in
  Ok (with_energy_model m
        (Some (mkEnergyModel (DEFAULT_PROPERTIES model) chg false (em_calculate model))),
      out).

Inductive CalculateReturn : Type :=
| ReturnProperties (p : MolecularProperties)
| ReturnJob (j : Job)
| ReturnDummyJob (r : PropertyDict).

Definition calculate (m : Molecule) (requests : option (list string))
    (wait use_cache : bool) : result (CalculateReturn * Molecule) :=
  let requests := default [] requests in
  em ← match energy_model m with Some em => Ok em | None => Raise AttributeError end;
  let to_calculate : gset string := list_to_set (requests ++ DEFAULT_PROPERTIES em) in
  let '(to_calculate, m) :=
    if use_cache
    then let '(p, m) := properties m in (to_calculate ∖ props_keys p, m)
    else (to_calculate, m) in
  '(job, m) ←
    (if decide (size to_calculate = 0%nat)
     then let '(p, m) := properties m in Ok (PlainResult (as_dict p), m)
     else job ← em_calculate em (_positions m) to_calculate; Ok (job, m));
  if wait then
    let '(p, m) := properties m in
    let m := with_properties m (dict_update p (job_result job)) in
    let '(p, m) := properties m in
    Ok (ReturnProperties p, m)
  else
    match job with
    | JobHandle _ => Ok (ReturnJob job, m)
    | PlainResult r => Ok (ReturnDummyJob r, m)
    end.

(** *** MolConstraintMixin *)

Definition clear_constraints (m : Molecule) : Molecule :=
  _reset_methods (with_constraints m []).

Section Constraints.
(** The constructors of the constraint classes: each is called with the
    atoms and the value (or [None]) only, and may raise. *)
Variable new_constraint : ConstraintKind → list Atom → option Value → result Constraint.

(** [self.constraints.append(c); self._reset_methods(); return self.constraints[-1]] *)
Definition append_constraint (m : Molecule) (c : Constraint) : result (Constraint * Molecule) :=
  let m := with_constraints m (constraints m ++ [c]) in
  let m := _reset_methods m in
  match last (constraints m) with
  | Some c' => Ok (c', m)
  | None => Raise IndexError
  end.

Definition constrain_atom (m : Molecule) (atom : Atom) (pos : option Value)
  : result (Constraint * Molecule) :=
  c ← new_constraint FixedPosition [atom] pos;
  append_constraint m c.

Definition constrain_distance (m : Molecule) (atom1 atom2 : Atom) (dist : option Value)
  : result (Constraint * Molecule) :=
  c ← new_constraint DistanceConstraint [atom1; atom2] dist;
  append_constraint m c.

Definition constrain_angle (m : Molecule) (atom1 atom2 atom3 : Atom) (angle : option Value)
  : result (Constraint * Molecule) :=
  c ← new_constraint AngleConstraint [atom1; atom2; atom3] angle;
  append_constraint m c.

Definition constrain_dihedral (m : Molecule) (atom1 atom2 atom3 atom4 : Atom)
    (angle : option Value) : result (Constraint * Molecule) :=
  c ← new_constraint DihedralConstraint [atom1; atom2; atom3; atom4] angle;
  append_constraint m c.
End Constraints.

(** *** MolTopologyMixin *)

(** Sum of [len(atom.bond_graph)] over the keys of the bond graph.
    Modelled from the spec: [Atom.bond_graph], which is not under src/; the
    molecule's bond graph maps each atom to its adjacency map, so an atom of
    the graph reads its own entry there. *)
Definition count_bond_ends (g : BondGraph) : Z :=
  fold_left (λ n atom, n + Z.of_nat (size (default ∅ (g !! atom)))) (keys g) 0.

Section Topology.
(** [atom.bond_graph] of every atom when the topology is built. *)
Variable bond_graph_of : Atom → option Adjacency.
(** The positions the atoms bring along: [_assign_atom_indices] indexes
    each atom's position into the molecule's zeroed array, through
    [Atom._index_into_molecule], which is not under src/.  The index, slice
    and mass it also writes are read by nothing here. *)
Variable atom_positions : list Atom → list coord.
(** [_assign_residue_indices] reads and writes the residues and chains of
    the atoms, [self.chains], [self.residues] and [is_biomolecule], and
    nothing else of the molecule.  The Residue, Chain and Instance classes
    it works with are not under src/, so its effect is taken as given: from
    the atoms and the residues so far, the new residue list and
    [is_biomolecule], or a failed assertion. *)
Variable assign_residue_indices : list Atom → list Residue → result (list Residue * bool).

Definition _rebuild_topology (m : Molecule) (bond_graph_arg : option BondGraph)
  : result Molecule :=
  g ← match bond_graph_arg with
      | None => _build_bonds bond_graph_of (atoms m)
      | Some g => Ok g
      end;
  let nd := 3 * num_atoms m in
  '(res, bio) ← assign_residue_indices (atoms m) (residues m);
  let n := count_bond_ends g in
  if decide (n `mod` 2 = 0) then
    Ok (mkMolecule (atoms m) g res bio nd (n `div` 2) (atom_positions (atoms m)) None
          (charge m) (constraints m) (energy_model m) (integrator m) (_properties m))
  else Raise (AssertionError "").

(** The loop of [addatoms] over the neighbors of one new atom. *)
Definition mirror_new_bond (old : BondGraph) (newatom nbr : Atom) (bonds : BondGraph)
  : result BondGraph :=
  if decide (nbr ∈ dom old) then
    new_bonds ← getitem bonds newatom;
    order ← getitem new_bonds nbr;
    nbr_bonds ← getitem bonds nbr;
    Ok (<[nbr := <[newatom := order]> nbr_bonds]> bonds)
  else Ok bonds.

Definition mirror_new_bonds (old : BondGraph) (newatom : Atom) (bonds : BondGraph)
  : result BondGraph :=
  new_bonds ← getitem bonds newatom;
  for_each (mirror_new_bond old newatom) (keys new_bonds) bonds.

(** [addatoms]; [has_parent atom] is [atom.parent is not None]. *)
Definition addatoms (has_parent : Atom → bool) (m : Molecule) (newatoms : list Atom)
  : result Molecule :=
  let m := _reset_methods m in
  if existsb has_parent newatoms then Raise (AssertionError "") else
  let old := bond_graph m in
  let m := with_atoms m (atoms m ++ newatoms) in
  bonds ← _build_bonds bond_graph_of (atoms m);
  bonds ← for_each (mirror_new_bonds old) newatoms bonds;
  _rebuild_topology m (Some bonds).

(** [Molecule.__init__], from the atom list it settles on (the given
    atoms or their copies); names are not kept. *)
Definition Molecule_init (atomlist : list Atom) (bond_graph_arg : option BondGraph)
    (model : option EnergyModel) (integ : option Integrator) (chg : Z)
  : result (Molecule * list Output) :=
  match atomlist with
  | [] => Raise IndexError
  | _ =>
      let m := mkMolecule atomlist ∅ [] false 0 0 [] None chg [] None None (mkProps [] ∅) in
      m ← _rebuild_topology m bond_graph_arg;
      '(m, out) ← match model with
                  | Some em => set_energy_model m em
                  | None => Ok (m, [])
                  end;
      let m := match integ with
               | Some i => set_integrator m i
               | None => m
               end in
      Ok (with_properties m (new_properties m), out)
  end.
End Topology.
End Model.

Arguments MolecularProperties : clear implicits.
Arguments PropertyDict : clear implicits.
Arguments PropValue : clear implicits.
Arguments Job : clear implicits.
Arguments EnergyModel : clear implicits.
Arguments Constraint : clear implicits.
Arguments Molecule : clear implicits.
Arguments CalculateReturn : clear implicits.

(** ** The degrees-of-freedom ladder as the specification words it *)

(** [rotation n] is what removed rotation takes off in a molecule of [n]
    atoms, [hydrogen_bonds m] the number of hydrogen bonds of [m]. *)
Definition dynamic_dof_spec {coord Value : Type} (rotation : Z → Z)
    (hydrogen_bonds : Molecule coord Value → Z) (m : Molecule coord Value) : Z :=
  match _dof m with
  | Some d => d
  | None =>
      let removed :=
        match integrator m with
        | None => 0
        | Some integ =>
            (if default false (remove_translation integ) then 3 else 0)
            + (if default false (remove_rotation integ) then rotation (num_atoms m) else 0)
            + match int_constraints integ with
              | None => 0
              | Some cs =>
                  let hbonds := bool_decide ("hbonds" ∈ cs) in
                  (if hbonds then hydrogen_bonds m else 0)
                  + (if bool_decide ("water" ∈ cs)
                     then (if hbonds then 7 else 9)
                          * Z.of_nat (length (filter (λ r, res_type r = "water") (residues m)))
                     else 0)
              end
        end in
      ndims m - removed - foldr Z.add 0 (dof <$> constraints m)
  end.

(** ** Example molecules *)

Definition O_ : Atom := mkAtom 0 8.
Definition H1_ : Atom := mkAtom 1 1.
Definition H2_ : Atom := mkAtom 2 1.

(** Water as its atoms describe it: only the oxygen lists its bonds. *)
Definition water_bonds (a : Atom) : option Adjacency :=
  if decide (a = O_) then Some {[ H1_ := 1; H2_ := 1 ]} else None.

Definition coords_at_origin (atomlist : list Atom) : list Z :=
  atomlist ≫= λ _, [0; 0; 0].

(** Every atom goes to the default residue. *)
Definition default_residue_only (atomlist : list Atom) (res : list Residue)
  : result (list Residue * bool) :=
  Ok (match res with [] => [mkResidue "UNK999" "unknown"] | _ => res end, false).

(** A model that returns each requested property, without positions. *)
Definition echo_model : EnergyModel Z Z :=
  mkEnergyModel ["potential_energy"] (Some None) true
    (λ _ requests, Ok (PlainResult (mkDict None (gset_to_gmap 42 requests)))).

(** A model whose job finishes with a result for another geometry. *)
Definition late_model : EnergyModel Z Z :=
  mkEnergyModel ["potential_energy"] None true
    (λ _ _, Ok (JobHandle
                  (mkDict (Some [0; 0; 0; 0; 0; 80]) {[ "potential_energy" := 42 ]}))).

Definition h2_bonds : BondGraph := {[ H1_ := {[ H2_ := 1 ]}; H2_ := {[ H1_ := 1 ]} ]}.

Definition h2_with (model : option (EnergyModel Z Z)) (integ : option Integrator)
  : Molecule Z Z :=
  mkMolecule [H1_; H2_] h2_bonds [mkResidue "UNK999" "unknown"] false 6 1
    [0; 0; 0; 0; 0; 74] None 0 [] model integ (mkProps [0; 0; 0; 0; 0; 74] ∅).

Definition h2 : Molecule Z Z := h2_with None None.

Definition lone_oxygen : Molecule Z Z :=
  mkMolecule [O_] {[ O_ := ∅ ]} [mkResidue "UNK999" "unknown"] false 3 0
    [0; 0; 0] None 0 [] None None (mkProps [0; 0; 0] ∅).


Definition unbuilt (atomlist : list Atom) : Molecule Z Z :=
  mkMolecule atomlist ∅ [] false 0 0 [] None 0 [] None None (mkProps [] ∅).

Definition water : Molecule Z Z :=
  mkMolecule [O_; H1_; H2_]
    {[ O_ := {[ H1_ := 1; H2_ := 1 ]}; H1_ := {[ O_ := 1 ]}; H2_ := {[ O_ := 1 ]} ]}
    [mkResidue "UNK999" "unknown"] false 9 2 [0; 0; 0; 0; 0; 0; 0; 0; 0] None 0 []
    None None (mkProps [] ∅).

(** O-H1 as a molecule has it, and a free H2 that lists its bond to O. *)
Definition hydroxyl_and_hydrogen (a : Atom) : option Adjacency :=
  if decide (a = O_) then Some {[ H1_ := 1 ]}
  else if decide (a = H1_) then Some {[ O_ := 1 ]}
  else if decide (a = H2_) then Some {[ O_ := 1 ]}
  else None.

(** O-H1 before the second hydrogen is added, and water grown from it. *)
Definition hydroxyl : Molecule Z Z :=
  mkMolecule [O_; H1_] {[ O_ := {[ H1_ := 1 ]}; H1_ := {[ O_ := 1 ]} ]}
    [mkResidue "UNK999" "unknown"] false 6 1 [0; 0; 0; 0; 0; 0] None 0 []
    None None (mkProps [0; 0; 0; 0; 0; 0] ∅).

Definition water_grown : Molecule Z Z := with_properties water (_properties hydroxyl).

(** Water as [__init__] leaves it. *)
Definition water_ready : Molecule Z Z := with_properties water (new_properties water).


(** Hydrogen with [echo_model] bound, before and after a calculation. *)
Definition h2_echo : Molecule Z Z := h2_with (Some echo_model) None.

Definition h2_calculated : Molecule Z Z :=
  mkMolecule [H1_; H2_] h2_bonds [mkResidue "UNK999" "unknown"] false 6 1
    [0; 0; 0; 0; 0; 74] None 0 [] (Some echo_model) None
    (mkProps [0; 0; 0; 0; 0; 74] {[ "potential_energy" := 42 ]}).

(** Hydrogen with [late_model] bound and a dipole in the cache. *)
Definition h2_late : Molecule Z Z :=
  mkMolecule [H1_; H2_] h2_bonds [mkResidue "UNK999" "unknown"] false 6 1
    [0; 0; 0; 0; 0; 74] None 0 [] (Some late_model) None
    (mkProps [0; 0; 0; 0; 0; 74] {[ "dipole" := 7 ]}).

Definition thermostat : Integrator := mkIntegrator (Some true) (Some true) None true.
Definition spinning_only : Integrator := mkIntegrator None (Some true) None true.
Definition rigid_water : Integrator :=
  mkIntegrator (Some true) (Some true) (Some ["hbonds"; "water"]) true.

(** One water molecule in a water residue, with one distance constraint. *)
Definition wet : Molecule Z Z :=
  mkMolecule [O_; H1_; H2_]
    {[ O_ := {[ H1_ := 1; H2_ := 1 ]}; H1_ := {[ O_ := 1 ]}; H2_ := {[ O_ := 1 ]} ]}
    [mkResidue "HOH1" "water"] false 9 2 [0; 0; 0; 0; 0; 0; 0; 0; 0] None 0
    [mkConstraint DistanceConstraint [O_; H1_] 96 1]
    None (Some rigid_water) (mkProps [0; 0; 0; 0; 0; 0; 0; 0; 0] ∅).

(** A constructor that takes the value given, or 0 for the current one. *)
Definition plain_constraint (kind : ConstraintKind) (atomlist : list Atom)
    (value : option Z) : result (Constraint Z) :=
  Ok (mkConstraint kind atomlist (default 0 value)
        (match kind with FixedPosition => 3 | _ => 1 end)).

(** ** Predicates of the statements *)

(** [g'] keeps every entry of [g], and each entry it adds is the mirror
    image of an entry of [atom]. *)
Definition extends_towards (atom : Atom) (g g' : BondGraph) : Prop :=
  dom g' = dom g
  ∧ (∀ x y k, order g x y = Some k → order g' x y = Some k)
  ∧ (∀ x y k, order g' x y = Some k →
       order g x y = Some k ∨ (y = atom ∧ x ≠ atom ∧ order g atom x = Some k)).

(** The entries of the atoms of a list have their mirror images. *)
Definition symmetric_on (atoms : list Atom) (g : BondGraph) : Prop :=
  ∀ a b k, a ∈ atoms → order g a b = Some k → order g b a = Some k.

(** The lists [_build_bonds] accepts: no atom twice, every neighbor an atom
    of the list, and no two entries for one pair with different orders. *)
Definition accepted_atoms (bond_graph_of : Atom → option Adjacency) (atoms : list Atom) : Prop :=
  NoDup atoms
  ∧ (∀ a adj b k, a ∈ atoms → bond_graph_of a = Some adj → adj !! b = Some k → b ∈ atoms)
  ∧ (∀ a b adj_a adj_b ka kb,
       a ∈ atoms → b ∈ atoms →
       bond_graph_of a = Some adj_a → adj_a !! b = Some ka →
       bond_graph_of b = Some adj_b → adj_b !! a = Some kb →
       ka = kb).

(** The keys are the atoms, the neighbors are atoms, and no pair has two orders. *)
Definition graph_ok (atoms : list Atom) (s : BondGraph) : Prop :=
  (∀ a, a ∈ atoms ↔ is_Some (s !! a))
  ∧ (∀ x y k, order s x y = Some k → y ∈ atoms)
  ∧ (∀ x y k k', order s x y = Some k → order s y x = Some k' → k = k').

(** The sum of the sizes of all adjacency maps of a bond graph. *)
Definition adjacency_sizes (g : BondGraph) : nat :=
  sum_list_with (λ entry, size entry.2) (map_to_list g).

(** The molecule a rebuild leaves behind. *)
Definition rebuilt {coord Value : Type} (m' : Molecule coord Value) : Prop :=
  Z.of_nat (adjacency_sizes (bond_graph m')) `mod` 2 = 0
  ∧ num_bonds m' = Z.of_nat (adjacency_sizes (bond_graph m')) `div` 2
  ∧ 2 * num_bonds m' = Z.of_nat (adjacency_sizes (bond_graph m'))
  ∧ ndims m' = 3 * num_atoms m'
  ∧ _dof m' = None.


(** The outcome of a constraint-adding method when the constructor gave
    [made]. *)
Definition constraint_added {coord Value : Type} (m : Molecule coord Value) (made : result (Constraint Value))
    (outcome : result (Constraint Value * Molecule coord Value)) : Prop :=
  match made with
  | Raise e => outcome = Raise e
  | Ok c =>
      ∃ m', outcome = Ok (c, m')
        ∧ constraints m' = constraints m ++ [c]
        ∧ (int_prepped <$> integrator m') = ((λ _, false) <$> integrator m)
        ∧ (em_prepped <$> energy_model m') = ((λ _, false) <$> energy_model m)
        ∧ atoms m' = atoms m
        ∧ _positions m' = _positions m
  end.

(** ** More of the molecule *)

(** [d.pop(k)] *)
Definition dict_pop `{Countable K} {V} (d : gmap K V) (k : K) : result (V * gmap K V) :=
  match d !! k with
  | Some v => Ok (v, delete k d)
  | None => Raise KeyError
  end.

(** [arr[start:stop] = v] on a flat array, for a slice that does not start
    before the array: the part of the slice past its end is dropped. *)
Definition slice_assign {A} (start stop : nat) (v : A) (arr : list A) : list A :=
  imap (λ i x, if decide (start ≤ i < stop)%nat then v else x) arr.

(** [counts[symbol] = counts.get(symbol, 0) + 1] for each symbol. *)
Definition count_symbols (symbols : list string) : gmap string nat :=
  fold_left (λ counts symbol, <[symbol := (default 0 (counts !! symbol) + 1)%nat]> counts)
    symbols ∅.

Section MoreModel.
Context {coord Value : Type} `{EqDecision coord}.

Definition with_bond_graph (m : Molecule coord Value) (g : BondGraph) : Molecule coord Value :=
  mkMolecule (atoms m) g (residues m) (is_biomolecule m) (ndims m)
    (num_bonds m) (_positions m) (_dof m) (charge m) (constraints m)
    (energy_model m) (integrator m) (_properties m).

(** *** MolPropertyMixin *)

(** [sum(self.atoms.atnum) - self.charge] *)
Definition num_electrons (m : Molecule coord Value) : Z :=
  fold_left Z.add (atnum <$> atoms m) 0 - charge m.

Definition homo (m : Molecule coord Value) : Z := num_electrons m `div` 2 - 1.

Definition lumo (m : Molecule coord Value) : Z := num_electrons m `div` 2.

Section CalcProperty.
(** [job[name]] on what [calculate] returns when it does not wait; the job
    classes are not under src/. *)
Variable job_getitem : CalculateReturn coord Value → string → result (PropValue coord Value).

(** [calc_property], whose keywords are those of [calculate]. *)
Definition calc_property (m : Molecule coord Value) (name : string) (wait use_cache : bool)
  : result (PropValue coord Value * Molecule coord Value) :=
  '(ret, m) ← calculate m (Some [name]) wait use_cache;
  match ret with
  | ReturnProperties p =>
      match props_lookup p name with
      | Some v => Ok (v, m)
      | None => Raise KeyError
      end
  | _ => v ← job_getitem ret name; Ok (v, m)
  end.

(** [calculate_forces] and its like take the keywords of [calculate] and
    drop them. *)
Definition calculate_forces (m : Molecule coord Value) (wait use_cache : bool) :=
  calc_property m "forces" true true.
Definition calculate_dipole (m : Molecule coord Value) (wait use_cache : bool) :=
  calc_property m "dipole" true true.
Definition calculate_electronic_state (m : Molecule coord Value) (wait use_cache : bool) :=
  calc_property m "electronic_state" true true.
End CalcProperty.

Definition forces (m : Molecule coord Value) := get_property m "forces".
Definition dipole (m : Molecule coord Value) := get_property m "dipole".
Definition electronic_state (m : Molecule coord Value) := get_property m "electronic_state".

(** *** MolReprMixin *)

(** [get_stoichiometry]; [symbol atom] is [atom.symbol], of the Atom class
    that is not under src/.  [sorted] orders strings byte by byte. *)
Definition get_stoichiometry (symbol : Atom → string) (m : Molecule coord Value)
    (html : bool) : string :=
  let counts := count_symbols (symbol <$> atoms m) in
  let my_elements := merge_sort String.le (elements (dom counts)) in
  String.concat ""
    ((λ k, if html
           then k +:+ "<sub>" +:+ pretty (default 0%nat (counts !! k)) +:+ "</sub>"
           else k +:+ pretty (default 0%nat (counts !! k)))
       <$> my_elements).

(** *** MolTopologyMixin *)

(** What [_assign_atom_indices] writes: the atoms it has handed to
    [_set_parent], the index and the slice of each atom, and the flat
    arrays of the molecule. *)
Record AtomIndexing (Mass : Type) : Type := mkIndexing {
  parents_set : list Atom;
  atom_index : gmap Atom nat;
  parent_slice : gmap Atom (nat * nat);
  dim_masses : list Mass;
  idx_positions : list coord;
  idx_momenta : list coord }.
Arguments mkIndexing {Mass}.
Arguments parents_set {Mass}.
Arguments atom_index {Mass}.
Arguments parent_slice {Mass}.
Arguments dim_masses {Mass}.
Arguments idx_positions {Mass}.
Arguments idx_momenta {Mass}.

Section AssignAtomIndices.
Context {Mass : Type}.
(** [atom.mass] *)
Variable mass : Atom → Mass.
(** [atom._index_into_molecule(name, array, atomslice)], which is not
    under src/: what it makes of the molecule's array. *)
Variable index_into_molecule : string → Atom → nat * nat → list coord → list coord.

(** One round of the loop, with the counters [idx] and [idim]. *)
Definition assign_atom (st : nat * nat * AtomIndexing Mass) (atom : Atom)
  : nat * nat * AtomIndexing Mass :=
  let '(idx, idim, s) := st in
  let atomslice := (idim, idim + 3)%nat in
  (S idx, (idim + 3)%nat,
   mkIndexing (parents_set s ++ [atom]) (<[atom := idx]> (atom_index s))
     (<[atom := atomslice]> (parent_slice s))
     (slice_assign idim (idim + 3) (mass atom) (dim_masses s))
     (index_into_molecule "_position" atom atomslice (idx_positions s))
     (index_into_molecule "_momentum" atom atomslice (idx_momenta s))).

Definition _assign_atom_indices (atomlist : list Atom) (s : AtomIndexing Mass)
  : AtomIndexing Mass :=
  (fold_left assign_atom atomlist (0%nat, 0%nat, s)).2.
End AssignAtomIndices.

(** *** Molecule *)

(** [addatom] *)
Definition addatom (bond_graph_of : Atom → option Adjacency)
    (atom_positions : list Atom → list coord)
    (assign_residue_indices : list Atom → list Residue → result (list Residue * bool))
    (has_parent : Atom → bool) (m : Molecule coord Value) (newatom : Atom)
  : result (Molecule coord Value) :=
  addatoms bond_graph_of atom_positions assign_residue_indices has_parent m [newatom].

(** [deletebond(bond)], with [bond.a1] and [bond.a2]; the molecule is
    returned too, since the first entry is gone when the second [pop]
    raises. *)
Definition deletebond (m : Molecule coord Value) (a1 a2 : Atom)
  : result () * Molecule coord Value :=
  match getitem (bond_graph m) a1 ≫= λ adj, dict_pop adj a2 with
  | Raise e => (Raise e, m)
  | Ok (_, adj1) =>
      let m := with_bond_graph m (<[a1 := adj1]> (bond_graph m)) in
      match getitem (bond_graph m) a2 ≫= λ adj, dict_pop adj a1 with
      | Raise e => (Raise e, m)
      | Ok (_, adj2) => (Ok (), with_bond_graph m (<[a2 := adj2]> (bond_graph m)))
      end
  end.

(** The [bonds] iterator, as the list of the pairs it yields; [index atom]
    is [atom.index]. *)
Definition bonds (index : Atom → Z) (m : Molecule coord Value) : list (Atom * Atom) :=
  atom ← keys (bond_graph m);
  nbr ← keys (default ∅ (bond_graph m !! atom));
  if decide (index atom > index nbr) then [] else [(atom, nbr)].
End MoreModel.

Arguments AtomIndexing : clear implicits.
Arguments mkIndexing {coord Mass}.
Arguments parents_set {coord Mass}.
Arguments atom_index {coord Mass}.
Arguments parent_slice {coord Mass}.
Arguments dim_masses {coord Mass}.
Arguments idx_positions {coord Mass}.
Arguments idx_momenta {coord Mass}.


(** *** MolReprMixin *)

(** The pieces [seq[i:i + 80]] for [i] in [xrange(0, len(seq), 80)], into
    which [biomol_summary_markdown] cuts the sequence of a chain. *)
Definition sequence_lines (seq : string) : list string :=
  (λ k, String.substring (80 * k) 80 seq)
    <$> List.seq 0 ((String.length seq + 79) `div` 80)%nat.

(** [biomol_summary_markdown]; [residue_table] is the markdown of
    [get_residue_table], and each chain is given by its name and its
    sequence. *)
Definition biomol_summary_markdown (residue_table : string) (residues : list Residue)
    (chains : list (string * string)) : list string :=
  if decide (1 < length residues)%nat then
    let seqs :=
      (λ chain, "**" +:+ chain.1 +:+ "**: `"
                +:+ String.concat (String "010"%char "") (sequence_lines chain.2) +:+ "`")
        <$> chains in
    ["### Residues"; residue_table +:+ "|"; "### Chains"; String.concat "<br>" seqs]
  else [].

(** A cell of the residue table: a count, or a text. *)
Inductive Cell : Type :=
| CountCell (n : nat)
| TextCell (s : string).

(** One round of the loop of [get_residue_table] over the residues of a
    chain, on [counts] and [unk]. *)
Definition count_residue (st : gmap string nat * list string) (residue : Residue)
  : gmap string nat * list string :=
  let '(counts, unk) := st in
  let cat := res_type residue in
  let unk := if decide (cat = "unknown") then unk ++ [res_name residue] else unk in
  (<[cat := (default 0 (counts !! cat) + 1)%nat]> counts, unk).

(** The line [get_residue_table] adds to the table for one chain, given by
    its name and its residues. *)
Definition residue_table_line (chain_name : string) (chain_residues : list Residue)
  : gmap string Cell :=
  let '(counts, unk) := fold_left count_residue chain_residues (∅, []) in
  let counts := CountCell <$> counts in
  let counts := <["chain" := TextCell ("<pre><b>" +:+ chain_name +:+ "</b></pre>")]> counts in
  if decide (0 < length unk ≤ 4)%nat
  then <["unknown" := TextCell (String.concat "," unk)]> counts
  else counts.

(** [get_residue_table], as the lines it adds to the table; the table
    class is not under src/. *)
Definition get_residue_table (chains : list (string * list Residue)) : list (gmap string Cell) :=
  (λ chain, residue_table_line chain.1 chain.2) <$> chains.

(** ** More predicates and examples *)

(** Both ends of every entry of the bond graph, as the two loops of
    [bonds] meet them. *)
Definition bond_ends (g : BondGraph) : list (Atom * Atom) :=
  atom ← keys g; nbr ← keys (default ∅ (g !! atom)); [(atom, nbr)].

(** How often a symbol occurs. *)
Definition occurrences (s : string) (symbols : list string) : nat :=
  length (filter (λ x, x = s) symbols).

(** Masses, symbols and indices for the atoms of the examples. *)
Definition example_mass (a : Atom) : Z := if decide (atnum a = 8) then 16 else 1.

Definition element_symbol (a : Atom) : string :=
  if decide (atnum a = 8) then "O" else if decide (atnum a = 1) then "H" else "X".

Definition by_id (a : Atom) : Z := Z.of_nat (atom_id a).

(** Atoms that keep their own arrays. *)
Definition keep_arrays (_ : string) (_ : Atom) (_ : nat * nat) (xs : list Z) : list Z := xs.

(** The arrays of three atoms as [_rebuild_topology] zeroes them. *)
Definition blank_indexing : AtomIndexing Z Z :=
  mkIndexing [] ∅ ∅ (replicate 9 0) (replicate 9 0) (replicate 9 0).

(** An oxygen that lists a bond to itself. *)
Definition self_bonded : Molecule Z Z :=
  with_bond_graph lone_oxygen {[ O_ := {[ O_ := 1 ]} ]}.


(** O-H1 with an energy in its snapshot, and water grown from it. *)
Definition hydroxyl_calculated : Molecule Z Z :=
  with_properties hydroxyl (mkProps [0; 0; 0; 0; 0; 0] {[ "potential_energy" := 42 ]}).

Definition water_outdated : Molecule Z Z :=
  with_properties water (_properties hydroxyl_calculated).

(** * moldesign.models.pyscf: the energy model built on PySCF *)

Module PySCF.

(** What the module raises beyond the exceptions above. *)
Inductive pyexn : Type :=
| Builtin (e : exn)
| ValueError (msg : string)
| TypeError
| ConvergenceError.

Inductive outcome (A : Type) : Type :=
| Returns (a : A)
| Raises (e : pyexn).
Arguments Returns {A} a.
Arguments Raises {A} e.

#[global] Instance outcome_ret : MRet outcome := λ A a, Returns a.
#[global] Instance outcome_bind : MBind outcome := λ A B f r,
  match r with
  | Returns a => f a
  | Raises e => Raises e
  end.

(** [s.split(sep)] for a separator of one character. *)
Fixpoint split (sep : Ascii.ascii) (s : string) : list string :=
  match s with
  | EmptyString => [""]
  | String c rest =>
      if decide (c = sep) then "" :: split sep rest
      else match split sep rest with
           | [] => [String c ""]
           | field :: fields => String c field :: fields
           end
  end.

(** [key in obj] and [iter(obj)] for an object whose class defines
    [__getitem__] and neither [__contains__] nor [__iter__]: Python reads
    [obj[0]], [obj[1]], ... in turn; an [IndexError] ends the reading, any
    other exception is raised.  [fuel] bounds the number of reads. *)
Fixpoint contains_by_index {A} (getitem : nat → outcome A) (eqb : A → bool)
    (fuel i : nat) : option (outcome bool) :=
  match fuel with
  | O => None
  | S fuel =>
      match getitem i with
      | Raises (Builtin IndexError) => Some (Returns false)
      | Raises e => Some (Raises e)
      | Returns item =>
          if eqb item then Some (Returns true)
          else contains_by_index getitem eqb fuel (S i)
      end
  end.

Fixpoint iterate_by_index {A} (getitem : nat → outcome A) (fuel i : nat)
  : option (outcome (list A)) :=
  match fuel with
  | O => None
  | S fuel =>
      match getitem i with
      | Raises (Builtin IndexError) => Some (Returns [])
      | Raises e => Some (Raises e)
      | Returns item =>
          match iterate_by_index getitem fuel (S i) with
          | Some (Returns items) => Some (Returns (item :: items))
          | other => other
          end
      end
  end.

(** ** LazyClassMap *)

Section LazyClassMap.
(** [importlib.import_module] and [getattr] on what it returns. *)
Context {PyModule Class : Type}.
Variable import_module : string → outcome PyModule.
Variable getattr : PyModule → string → outcome Class.

(** [LazyClassMap.__getitem__]: the mapping has strings for keys, so an
    integer is never one of them. *)
Definition LazyClassMap_getitem (mapping : gmap string string) (key : nat + string)
  : outcome Class :=
  match key with
  | inl _ => Raises (Builtin KeyError)
  | inr key =>
      match mapping !! key with
      | None => Raises (Builtin KeyError)
      | Some path =>
          let fields := split "."%char path in
          let cls := List.last fields "" in
          let modname := String.concat "." (removelast fields) in
          pymod ← import_module modname;
          getattr pymod cls
      end
  end.

(** [key in lazymap]: the class has [__getitem__] only. *)
Definition LazyClassMap_contains (item_is : Class → bool) (mapping : gmap string string)
    (fuel : nat) : option (outcome bool) :=
  contains_by_index (λ i, LazyClassMap_getitem mapping (inl i)) item_is fuel 0.

End LazyClassMap.

(** ** PySCF metadata constants *)

Definition THEORIES : gmap string string :=
  {[ "hf" := "pyscf.scf.RHF"; "rhf" := "pyscf.scf.RHF"; "uhf" := "pyscf.scf.UHF";
     "mcscf" := "pyscf.mcscf.CASSCF"; "casscf" := "pyscf.mcscf.CASSCF";
     "casci" := "pyscf.mcscf.CASCI"; "mp2" := "pyscf.mp.MP2";
     "dft" := "pyscf.dft.RKS"; "rks" := "pyscf.dft.RKS"; "ks" := "pyscf.dft.RKS" ]}.

Definition FORCE_CALCULATORS : gmap string string :=
  {[ "rhf" := "pyscf.grad.RHF"; "hf" := "pyscf.grad.RHF" ]}.

(** ** PySCFPotential.calculate *)

Section Calculate.
Context {PyModule Class : Type}.
Variable import_module : string → outcome PyModule.
Variable getattr : PyModule → string → outcome Class.

(** The first statements of [calculate], on the requests and
    [self.params.theory]; [rest] is the calculation that follows them,
    given the force calculator when forces are asked for.  [item_is theory]
    is the comparison of an item with the theory's name.  The message of
    the [ValueError] joins the items of [FORCE_CALCULATORS], which are
    classes and no strings, with the separator
    ['Forces are only available for the following theories:,']. *)
Definition calculate {R} (item_is : string → Class → bool) (theory : string)
    (requests : gset string) (rest : option Class → outcome R) (fuel : nat)
  : option (outcome R) :=
  let do_forces := bool_decide ("forces" ∈ requests) in
  let continue :=
    force_calculator ←
      (if do_forces
       then cls ← LazyClassMap_getitem import_module getattr FORCE_CALCULATORS (inr theory);
            Returns (Some cls)
       else Returns None);
    rest force_calculator in
  if do_forces then
    match LazyClassMap_contains import_module getattr (item_is theory)
            FORCE_CALCULATORS fuel with
    | None => None
    | Some (Raises e) => Some (Raises e)
    | Some (Returns true) => Some continue
    | Some (Returns false) =>
        match iterate_by_index
                (λ i, LazyClassMap_getitem import_module getattr FORCE_CALCULATORS (inl i))
                fuel 0 with
        | None => None
        | Some (Raises e) => Some (Raises e)
        | Some (Returns []) => Some (Raises (ValueError ""))
        | Some (Returns (_ :: _)) => Some (Raises TypeError)
        end
    end
  else Some continue.
End Calculate.

(** ** PySCFPotential._converge *)

(** Modelled from the spec: the PySCF method object, which is not under
    src/, as far as [_converge] reads and writes it; [scf_state] is the
    rest of it.  [max_cycle] is an integer, divided as Python 2 divides
    integers. *)
Record Method (S : Type) : Type := mkMethod {
  init_guess : string;
  level_shift : QArith_base.Q;
  max_cycle : Z;
  converged : bool;
  scf_state : S }.
Arguments mkMethod {S}.
Arguments init_guess {S}.
Arguments level_shift {S}.
Arguments max_cycle {S}.
Arguments converged {S}.
Arguments scf_state {S}.

Section Converge.
Context {S DM : Type}.
(** [method.kernel(dm0=...)], which works on the method object, and
    [method.make_rdm1()]. *)
Variable kernel : Method S → option DM → Method S.
Variable make_rdm1 : Method S → DM.

Definition with_init_guess (method : Method S) (guess : string) : Method S :=
  mkMethod guess (level_shift method) (max_cycle method) (converged method) (scf_state method).
Definition with_level_shift (method : Method S) (shift : QArith_base.Q) : Method S :=
  mkMethod (init_guess method) shift (max_cycle method) (converged method) (scf_state method).
Definition with_max_cycle (method : Method S) (n : Z) : Method S :=
  mkMethod (init_guess method) (level_shift method) n (converged method) (scf_state method).

(** [_converge]: the outcome, the method object as it is left, and the
    messages logged.  [failed] holds the method object itself, once for
    each [append]; its entries are read when the function returns, and
    show the object as it is then. *)
Definition _converge (method : Method S) (dm0 : option DM)
  : outcome (Method S * list (Method S)) * Method S * list string :=
  let method := kernel method dm0 in
  if converged method then (Returns (method, []), method, []) else
  let method := with_init_guess method (if dm0 is Some _ then "atom" else "minao") in
  let log1 := "SCF failed to converge. Retrying with initial guess " +:+ init_guess method in
  let method := kernel method None in
  if converged method then (Returns (method, [method]), method, [log1]) else
  let log2 := "SCF failed to converge. Performing " +:+ pretty (max_cycle method `div` 2)
              +:+ " iterations with level shift of -0.5 hartree" in
  let method := with_init_guess method "minao" in
  let method := with_level_shift method (QArith_base.Qmake (-1) 2) in
  let method := with_max_cycle method (max_cycle method `div` 2) in
  let method := kernel method None in
  if converged method then (Returns (method, [method; method]), method, [log1; log2]) else
  let log3 := "Removing level shift and continuing" in
  let level_shift_dm := make_rdm1 method in
  let method := with_level_shift method (QArith_base.Qmake 0 1) in
  let method := with_max_cycle method (max_cycle method * 2) in
  let method := kernel method (Some level_shift_dm) in
  if converged method then (Returns (method, [method; method]), method, [log1; log2; log3])
  else (Raises ConvergenceError, method, [log1; log2; log3]).
End Converge.

End PySCF.

(** ** Examples for the PySCF model *)

(** An import that returns the name it is given, and an attribute that is
    the pair of the module and its own name. *)
Definition import_by_name (modname : string) : PySCF.outcome string :=
  PySCF.Returns modname.

Definition getattr_named (pymod cls : string) : PySCF.outcome (string * string) :=
  PySCF.Returns (pymod, cls).


Definition stubborn_kernel (method : PySCF.Method nat) (_ : option ()) : PySCF.Method nat :=
  PySCF.mkMethod (PySCF.init_guess method) (PySCF.level_shift method)
    (PySCF.max_cycle method) false (S (PySCF.scf_state method)).

Definition no_density (_ : PySCF.Method nat) : () := ().

Definition fresh_method : PySCF.Method nat :=
  PySCF.mkMethod "minao" (QArith_base.Qmake 0 1) 51 false 0%nat.
(** * Verification *)

(** ** Loops *)

Lemma bind_Ok {A B} (r : result A) (f : A → result B) (b : B) :
  r ≫= f = Ok b → ∃ a, r = Ok a ∧ f a = Ok b.
Proof. destruct r as [a|e]; simpl; [eauto | discriminate]. Qed.

Lemma getitem_Ok `{Countable K} {V} (d : gmap K V) (k : K) (v : V) :
  getitem d k = Ok v ↔ d !! k = Some v.
Proof. unfold getitem. destruct (d !! k); split; congruence. Qed.

(** Invariant rule for a loop: [I pre s] holds of the state [s] reached
    after the elements [pre] have been visited. *)
Lemma for_each_inv {A S} (I : list A → S → Prop) (body : A → S → result S) xs acc acc' :
  for_each body xs acc = Ok acc' →
  I [] acc →
  (∀ pre x s s', pre ++ [x] `prefix_of` xs → I pre s → body x s = Ok s' → I (pre ++ [x]) s') →
  I xs acc'.
Proof.
  intros Hrun Hinit Hstep.
  enough (Hgen : ∀ post pre s, pre ++ post = xs → I pre s →
                   for_each body post s = Ok acc' → I xs acc')
    by (eapply (Hgen xs []); eauto).
  induction post as [|x post IH]; intros pre s Hsplit Hpre Hpost; simpl in Hpost.
  - rewrite app_nil_r in Hsplit. congruence.
  - apply bind_Ok in Hpost as (s' & Hbody & Hrest).
    apply (IH (pre ++ [x]) s'); [by rewrite <- app_assoc | | done].
    eapply Hstep; eauto. exists post. by rewrite <- app_assoc.
Qed.

(** A loop whose body cannot fail on the states satisfying [P] runs to the end. *)
Lemma for_each_succeeds {A S} (P : S → Prop) (body : A → S → result S) xs acc :
  P acc →
  (∀ x s, x ∈ xs → P s → ∃ s', body x s = Ok s' ∧ P s') →
  ∃ acc', for_each body xs acc = Ok acc' ∧ P acc'.
Proof.
  revert acc. induction xs as [|x xs IH]; intros acc Hacc Hbody; simpl.
  - eauto.
  - destruct (Hbody x acc) as (s' & -> & Hs'); [left | done |]. simpl.
    apply IH; [done |]. intros y s Hy. apply Hbody. by right.
Qed.

(** ** The bond graph *)

Lemma order_Some (g : BondGraph) (a b : Atom) (k : Z) :
  order g a b = Some k ↔ ∃ adj, g !! a = Some adj ∧ adj !! b = Some k.
Proof.
  unfold order. destruct (g !! a) as [adj|]; simpl; split.
  - eauto.
  - by intros (? & [= <-] & ?).
  - discriminate.
  - by intros (? & ? & ?).
Qed.

Lemma elem_of_keys {V} (d : gmap Atom V) (a : Atom) : a ∈ keys d ↔ is_Some (d !! a).
Proof. unfold keys. by rewrite elem_of_elements, elem_of_dom. Qed.

Lemma extends_towards_refl atom g : extends_towards atom g g.
Proof. repeat split; auto. Qed.

Lemma extends_towards_trans atom g1 g2 g3 :
  extends_towards atom g1 g2 → extends_towards atom g2 g3 → extends_towards atom g1 g3.
Proof.
  intros (Hd1 & Hk1 & Hn1) (Hd2 & Hk2 & Hn2). repeat split.
  - congruence.
  - auto.
  - intros x y k Hxy. destruct (Hn2 _ _ _ Hxy) as [Hold | (-> & Hne & Hold)]; [auto |].
    destruct (Hn1 _ _ _ Hold) as [Holder | (-> & Hne' & _)]; [| done].
    right. auto.
Qed.

Lemma record_bond_Ok atom nbr g g' :
  record_bond atom nbr g = Ok g' →
  extends_towards atom g g'
  ∧ ∃ k, order g atom nbr = Some k ∧ order g' nbr atom = Some k.
Proof.
  unfold record_bond. intros Hrun.
  apply bind_Ok in Hrun as (nbr_bonds & Hnbr%getitem_Ok & Hrun).
  apply bind_Ok in Hrun as (atom_bonds & Hatom%getitem_Ok & Hrun).
  apply bind_Ok in Hrun as (k & Hk%getitem_Ok & Hrun).
  assert (Hfwd : order g atom nbr = Some k) by (apply order_Some; eauto).
  destruct (nbr_bonds !! atom) as [back|] eqn:Hback.
  - case_decide; [|discriminate]. simplify_eq.
    split; [apply extends_towards_refl |].
    exists k. split; [done |]. apply order_Some; eauto.
  - simplify_eq. split; [repeat split |].
    + apply dom_insert_lookup_L. eauto.
    + intros x y k' (adj & Hx & Hy)%order_Some. apply order_Some.
      destruct (decide (x = nbr)) as [->|Hne].
      * rewrite lookup_insert_eq. eexists; split; [done |].
        simplify_eq. rewrite lookup_insert_ne; [done | congruence].
      * rewrite lookup_insert_ne by done. eauto.
    + intros x y k' (adj & Hx & Hy)%order_Some.
      destruct (decide (x = nbr)) as [->|Hne].
      * rewrite lookup_insert_eq in Hx. simplify_eq.
        destruct (decide (y = atom)) as [->|Hne].
        -- rewrite lookup_insert_eq in Hy. simplify_eq. right.
           repeat split; [congruence | done].
        -- rewrite lookup_insert_ne in Hy by done. left. apply order_Some; eauto.
      * rewrite lookup_insert_ne in Hx by done. left. apply order_Some; eauto.
    + exists k. split; [done |]. apply order_Some.
      rewrite lookup_insert_eq. eexists; split; [done |]. apply lookup_insert_eq.
Qed.

(** The inner loop gives every neighbor of [atom] the matching entry. *)
Lemma record_bonds_of_Ok atom g g' :
  record_bonds_of atom g = Ok g' →
  extends_towards atom g g'
  ∧ ∀ b k, order g atom b = Some k → order g' b atom = Some k.
Proof.
  unfold record_bonds_of. intros Hrun.
  apply bind_Ok in Hrun as (atom_bonds & Hatom%getitem_Ok & Hrun).
  pose (I := λ (pre : list Atom) (s : BondGraph),
          extends_towards atom g s
          ∧ ∀ b k, b ∈ pre → order g atom b = Some k → order s b atom = Some k).
  assert (HI : I (keys atom_bonds) g').
  { eapply (for_each_inv I); [exact Hrun | |].
    - split; [apply extends_towards_refl |]. by intros b k ?%elem_of_nil.
    - intros pre x s s' _ [Hext Hdone] Hbody.
      apply record_bond_Ok in Hbody as (Hstep & k & Hfwd & Hback).
      split; [by eapply extends_towards_trans |].
      intros b k' [Hb | ->%list_elem_of_singleton]%elem_of_app Hg.
      + apply Hstep. by apply Hdone.
      + destruct Hext as (_ & Hkeep & _). apply Hkeep in Hg. congruence. }
  destruct HI as [Hext Hall]. split; [done |].
  intros b k Hg. apply Hall; [| done].
  apply order_Some in Hg as (adj & Hadj & Hb). simplify_eq.
  apply elem_of_keys. eauto.
Qed.

(** The second pass keeps all entries and leaves the graph symmetric. *)
Lemma second_pass_Ok atoms g g' :
  for_each record_bonds_of atoms g = Ok g' →
  dom g' = dom g
  ∧ (∀ x y k, order g x y = Some k → order g' x y = Some k)
  ∧ symmetric_on atoms g'.
Proof.
  intros Hrun.
  pose (I := λ (pre : list Atom) (s : BondGraph),
          dom s = dom g
          ∧ (∀ x y k, order g x y = Some k → order s x y = Some k)
          ∧ symmetric_on pre s).
  apply (for_each_inv I) in Hrun; [exact Hrun | |].
  - repeat split; auto. by intros a b k ?%elem_of_nil.
  - intros pre x s s' _ (Hdom & Hkeep & Hsym) Hbody.
    apply record_bonds_of_Ok in Hbody as ((Hd & Hk & Hnew) & Hmirror).
    repeat split.
    + congruence.
    + auto.
    + intros a b k [Ha | ->%list_elem_of_singleton]%elem_of_app Hab.
      * destruct (Hnew _ _ _ Hab) as [Hold | (-> & _ & Hold)]; auto.
      * destruct (Hnew _ _ _ Hab) as [Hold | (-> & Hne & _)]; [auto | done].
Qed.

Lemma initial_bonds_Ok bond_graph_of atoms g0 g :
  initial_bonds bond_graph_of atoms g0 = Ok g →
  NoDup atoms
  ∧ (∀ a, a ∈ atoms → g0 !! a = None ∧ g !! a = Some (default ∅ (bond_graph_of a)))
  ∧ (∀ a, a ∉ atoms → g !! a = g0 !! a).
Proof.
  revert g0. induction atoms as [|x atoms IH]; intros g0 Hrun; simpl in Hrun.
  - simplify_eq. split; [constructor |]. split; [| done]. by intros a ?%elem_of_nil.
  - case_decide as Hin; [discriminate |].
    apply not_elem_of_dom in Hin.
    apply IH in Hrun as (Hnd & Hin' & Hout).
    assert (Hx : x ∉ atoms).
    { intros Hx. destruct (Hin' x Hx) as [Hnone _].
      by rewrite lookup_insert_eq in Hnone. }
    split; [by constructor |]. split.
    + intros a [-> | Ha]%elem_of_cons.
      * rewrite (Hout x Hx). by rewrite lookup_insert_eq.
      * destruct (Hin' a Ha) as [Hnone Hsome]. split; [| done].
        destruct (decide (x = a)) as [->|Hne]; [done |].
        by rewrite lookup_insert_ne in Hnone.
    + intros a Ha. apply not_elem_of_cons in Ha as [Hne Ha].
      rewrite (Hout a Ha). by rewrite lookup_insert_ne.
Qed.

Lemma initial_bonds_succeeds bond_graph_of atoms g0 :
  NoDup atoms → (∀ a, a ∈ atoms → g0 !! a = None) →
  succeeds (initial_bonds bond_graph_of atoms g0).
Proof.
  intros Hnd. revert g0. induction Hnd as [|x atoms Hx Hnd IH]; intros g0 Hfree; simpl.
  - by eexists.
  - rewrite decide_False by (apply not_elem_of_dom, Hfree; left).
    apply IH. intros a Ha. rewrite lookup_insert_ne; [apply Hfree; by right |].
    intros ->. done.
Qed.

(** What [_build_bonds] returns: the atoms are distinct and are exactly the
    keys, the entries the atoms came with are still there, and the graph is
    symmetric. *)
Lemma build_bonds_Ok bond_graph_of atoms g :
  _build_bonds bond_graph_of atoms = Ok g →
  NoDup atoms
  ∧ (∀ a, a ∈ atoms ↔ is_Some (g !! a))
  ∧ (∀ a adj b k, a ∈ atoms → bond_graph_of a = Some adj → adj !! b = Some k →
       order g a b = Some k)
  ∧ symmetric_on atoms g.
Proof.
  unfold _build_bonds. intros Hrun.
  apply bind_Ok in Hrun as (g0 & Hfirst & Hsecond).
  apply initial_bonds_Ok in Hfirst as (Hnd & Hin & Hout).
  apply second_pass_Ok in Hsecond as (Hdom & Hkeep & Hsym).
  repeat split; [done | | | | done].
  - intros Ha. apply elem_of_dom. rewrite Hdom. apply elem_of_dom.
    destruct (Hin a Ha) as [_ ->]. eauto.
  - intros Ha%elem_of_dom. rewrite Hdom in Ha. apply elem_of_dom in Ha.
    destruct (decide (a ∈ atoms)) as [|Hna]; [done |].
    rewrite (Hout a Hna), lookup_empty in Ha. by destruct Ha.
  - intros a adj b k Ha Hadj Hb. apply Hkeep, order_Some.
    destruct (Hin a Ha) as [_ ->]. rewrite Hadj. eauto.
Qed.


(** *** Which lists are accepted *)

Lemma graph_ok_extends atoms atom s s' :
  graph_ok atoms s → atom ∈ atoms → extends_towards atom s s' → graph_ok atoms s'.
Proof.
  intros (Hkeys & Hclosed & Hcons) Hatom (Hdom & Hkeep & Hnew). split; [| split].
  - intros a. rewrite Hkeys, <- !elem_of_dom. by rewrite Hdom.
  - intros x y k Hxy. destruct (Hnew _ _ _ Hxy) as [Hold | (-> & _ & _)]; eauto.
  - intros x y k k' Hxy Hyx.
    destruct (Hnew _ _ _ Hxy) as [Hold | (-> & Hne & Hold)];
      destruct (Hnew _ _ _ Hyx) as [Hold' | (-> & Hne' & Hold')]; try done.
    + eauto.
    + congruence.
    + congruence.
Qed.

Lemma record_bond_succeeds atoms atom nbr s k :
  graph_ok atoms s → order s atom nbr = Some k → succeeds (record_bond atom nbr s).
Proof.
  intros (Hkeys & Hclosed & Hcons) Hfwd. unfold record_bond, succeeds.
  pose proof (Hclosed _ _ _ Hfwd) as Hnbr. apply Hkeys in Hnbr as [nbr_bonds Hnbr].
  apply order_Some in Hfwd as Hfwd'. destruct Hfwd' as (atom_bonds & Hatom & Hk).
  rewrite (proj2 (getitem_Ok _ _ _) Hnbr). simpl.
  rewrite (proj2 (getitem_Ok _ _ _) Hatom). simpl.
  rewrite (proj2 (getitem_Ok _ _ _) Hk). simpl.
  destruct (nbr_bonds !! atom) as [back|] eqn:Hback; [| by eexists].
  rewrite decide_True; [by eexists |].
  apply (Hcons nbr atom); [apply order_Some; eauto | done].
Qed.

Lemma record_bonds_of_succeeds atoms atom s :
  graph_ok atoms s → atom ∈ atoms →
  ∃ s', record_bonds_of atom s = Ok s' ∧ graph_ok atoms s'.
Proof.
  intros Hok Hatom. unfold record_bonds_of.
  destruct (proj1 (proj1 Hok atom) Hatom) as [atom_bonds Hbonds].
  rewrite (proj2 (getitem_Ok _ _ _) Hbonds). simpl.
  destruct (for_each_succeeds
              (λ s', graph_ok atoms s' ∧ extends_towards atom s s')
              (record_bond atom) (keys atom_bonds) s) as (s' & Hrun & Hs' & _).
  - split; [done | apply extends_towards_refl].
  - intros x si [k Hx]%elem_of_keys [Hsi Hext].
    assert (Hfwd : order si atom x = Some k).
    { destruct Hext as (_ & Hkeep & _). apply Hkeep, order_Some. eauto. }
    destruct (record_bond_succeeds atoms atom x si k Hsi Hfwd) as [s' Hs'].
    exists s'. split; [done |].
    apply record_bond_Ok in Hs' as [Hstep _].
    split; [by eapply graph_ok_extends | by eapply extends_towards_trans].
  - eauto.
Qed.

(** [_build_bonds] returns a graph exactly on the accepted lists. *)
Lemma build_bonds_accepts bond_graph_of atoms :
  succeeds (_build_bonds bond_graph_of atoms) ↔ accepted_atoms bond_graph_of atoms.
Proof.
  split.
  - intros [g Hrun]. apply build_bonds_Ok in Hrun as (Hnd & Hkeys & Hkeep & Hsym).
    split; [done |]. split.
    + intros a adj b k Ha Hadj Hb.
      pose proof (Hkeep _ _ _ _ Ha Hadj Hb) as Hab. apply Hsym in Hab; [| done].
      apply Hkeys. apply order_Some in Hab as (? & ? & _). eauto.
    + intros a b adj_a adj_b ka kb Ha Hb Hadj_a Hka Hadj_b Hkb.
      pose proof (Hkeep _ _ _ _ Ha Hadj_a Hka) as Hab.
      pose proof (Hkeep _ _ _ _ Hb Hadj_b Hkb) as Hba.
      apply Hsym in Hab; [| done]. congruence.
  - intros (Hnd & Hclosed & Hcons). unfold _build_bonds.
    destruct (initial_bonds_succeeds bond_graph_of atoms ∅ Hnd) as [g0 Hfirst];
      [intros; apply lookup_empty |].
    rewrite Hfirst. simpl.
    apply initial_bonds_Ok in Hfirst as (_ & Hin & Hout).
    assert (Hentry : ∀ x y k, order g0 x y = Some k →
              x ∈ atoms ∧ ∃ adj, bond_graph_of x = Some adj ∧ adj !! y = Some k).
    { intros x y k (adj & Hx & Hy)%order_Some.
      destruct (decide (x ∈ atoms)) as [Hxin | Hxout].
      - split; [done |]. destruct (Hin x Hxin) as [_ Hgx].
        rewrite Hgx in Hx. simplify_eq.
        destruct (bond_graph_of x) as [adj|]; simpl in Hy; [eauto |].
        by rewrite lookup_empty in Hy.
      - by rewrite (Hout x Hxout), lookup_empty in Hx. }
    destruct (for_each_succeeds (graph_ok atoms) record_bonds_of atoms g0)
      as (g & Hrun & _).
    + split; [| split].
      * intros a. split.
        -- intros Ha. destruct (Hin a Ha) as [_ ->]. eauto.
        -- intros Ha. destruct (decide (a ∈ atoms)) as [|Hna]; [done |].
           rewrite (Hout a Hna), lookup_empty in Ha. by destruct Ha.
      * intros x y k (Hx & adj & Hadj & Hy)%Hentry. eauto.
      * intros x y k k' (Hx & adj & Hadj & Hy)%Hentry (Hy' & adj' & Hadj' & Hx')%Hentry.
        eauto.
    + intros x s Hx Hs. by apply record_bonds_of_succeeds.
    + by exists g.
Qed.

(** ** Counting bonds *)

Lemma keys_Permutation {V} (d : gmap Atom V) : keys d ≡ₚ (map_to_list d).*1.
Proof.
  apply NoDup_Permutation.
  - apply NoDup_elements.
  - apply NoDup_fst_map_to_list.
  - intros a. rewrite elem_of_keys, list_elem_of_fmap. split.
    + intros [v Hv]. exists (a, v). split; [done |]. by apply elem_of_map_to_list.
    + intros ([a' v] & -> & Hv%elem_of_map_to_list). eauto.
Qed.

Lemma fold_left_count {A} (f : A → nat) (l : list A) (n : Z) :
  fold_left (λ n x, n + Z.of_nat (f x)) l n = n + Z.of_nat (sum_list_with f l).
Proof.
  revert n. induction l as [|x l IH]; intros n; simpl; [lia |].
  rewrite IH. lia.
Qed.

Lemma sum_list_with_fst {A B} (f : A → nat) (h : A * B → nat) (l : list (A * B)) :
  Forall (λ entry, f entry.1 = h entry) l →
  sum_list_with f l.*1 = sum_list_with h l.
Proof.
  induction 1 as [|entry l Hentry _ IH]; [done |].
  rewrite fmap_cons. simpl. rewrite Hentry. f_equal. exact IH.
Qed.

Lemma count_bond_ends_sum (g : BondGraph) :
  count_bond_ends g = Z.of_nat (adjacency_sizes g).
Proof.
  unfold count_bond_ends, adjacency_sizes.
  rewrite (fold_left_count (λ atom, size (default ∅ (g !! atom)))), Z.add_0_l.
  f_equal. rewrite keys_Permutation.
  apply sum_list_with_fst, Forall_forall.
  intros [a adj] Hentry%elem_of_map_to_list. simpl. by rewrite Hentry.
Qed.

Section TopologyFacts.
Context {coord Value : Type} `{EqDecision coord}.
Variable bond_graph_of : Atom → option Adjacency.
Variable atom_positions : list Atom → list coord.
Variable assign_residue_indices : list Atom → list Residue → result (list Residue * bool).

Local Abbreviation rebuild :=
  (_rebuild_topology (Value := Value) bond_graph_of atom_positions assign_residue_indices).

Lemma rebuild_topology_Ok m arg m' :
  rebuild m arg = Ok m' →
  rebuilt m'
  ∧ atoms m' = atoms m
  ∧ match arg with
    | Some g => bond_graph m' = g
    | None => _build_bonds bond_graph_of (atoms m) = Ok (bond_graph m')
    end.
Proof.
  unfold rebuild, _rebuild_topology. intros Hrun.
  apply bind_Ok in Hrun as (g & Hg & Hrun).
  apply bind_Ok in Hrun as ([res bio] & Hres & Hrun).
  case_decide as Heven; [| discriminate]. simplify_eq. simpl.
  rewrite count_bond_ends_sum in Heven.
  split; [| split; [done |]].
  - unfold rebuilt. simpl. rewrite count_bond_ends_sum.
    repeat split; try done.
    apply Z.mod_divide in Heven as [q Hq]; [| done].
    rewrite Hq, Z.div_mul by done. lia.
  - destruct arg; by simplify_eq.
Qed.


Lemma properties_setter_new (m : Molecule coord Value) :
  properties_setter m (new_properties m) = Ok (with_properties m (new_properties m)).
Proof.
  unfold properties_setter, geometry_matches. by rewrite bool_decide_eq_true_2.
Qed.

Lemma set_energy_model_topology (m m' : Molecule coord Value) model out :
  set_energy_model m model = Ok (m', out) →
  atoms m' = atoms m ∧ bond_graph m' = bond_graph m ∧ num_bonds m' = num_bonds m
  ∧ ndims m' = ndims m ∧ _dof m' = _dof m ∧ constraints m' = constraints m.
Proof.
  unfold set_energy_model. rewrite properties_setter_new. simpl. intros Hrun.
  destruct (em_charge model) as [[q|]|]; [case_decide | |]; by simplify_eq.
Qed.

(** A molecule as [__init__] leaves it: three dimensions per atom, no
    override of [dynamic_dof] and no constraint. *)
Lemma Molecule_init_dims atomlist arg model integ chg m' out :
  Molecule_init (Value := Value) bond_graph_of atom_positions assign_residue_indices
    atomlist arg model integ chg = Ok (m', out) →
  atoms m' = atomlist ∧ ndims m' = 3 * num_atoms m' ∧ _dof m' = None ∧ constraints m' = [].
Proof.
  unfold Molecule_init. intros Hrun.
  destruct atomlist as [|a atomlist]; [discriminate |].
  apply bind_Ok in Hrun as (m1 & Hm1 & Hrun).
  assert (Hcs1 : constraints m1 = []).
  { unfold _rebuild_topology in Hm1.
    apply bind_Ok in Hm1 as (g & _ & Hm1).
    apply bind_Ok in Hm1 as ([res bio] & _ & Hm1).
    case_decide; by simplify_eq. }
  apply rebuild_topology_Ok in Hm1 as ((_ & _ & _ & Hdims & Hdof) & Hatoms & _).
  apply bind_Ok in Hrun as ([m2 out2] & Hm2 & Hrun).
  assert (Hsame : atoms m2 = atoms m1 ∧ ndims m2 = ndims m1 ∧ _dof m2 = _dof m1
                  ∧ constraints m2 = constraints m1).
  { destruct model as [em|].
    - by apply set_energy_model_topology in Hm2 as (? & _ & _ & ? & ? & ?).
    - by simplify_eq. }
  destruct Hsame as (Ha & Hn & Hd & Hc).
  unfold num_atoms in *. simpl in Hatoms.
  destruct integ; simplify_eq; simpl; rewrite Ha, Hn, Hd, Hc, Hatoms, Hdims, Hdof, Hcs1;
    by rewrite Hatoms.
Qed.

End TopologyFacts.

Example build_water :
  _build_bonds water_bonds [O_; H1_; H2_] = Ok (bond_graph water).
Proof. vm_compute. reflexivity. Qed.

Example init_water :
  Molecule_init water_bonds coords_at_origin default_residue_only
    [O_; H1_; H2_] None None None 0 = Ok (water_ready, [])
  ∧ num_bonds water_ready = 2 ∧ is_biomolecule water_ready = false.
Proof. vm_compute. repeat split. Qed.

(** Adding the second hydrogen to O-H1: its bond to the oxygen is mirrored. *)
Example addatoms_water :
  addatoms hydroxyl_and_hydrogen coords_at_origin default_residue_only (λ _, false)
    hydroxyl [H2_] = Ok water_grown
  ∧ order (bond_graph water_grown) O_ H2_ = Some 1.
Proof. vm_compute. repeat split. Qed.

Example rebuild_water :
  _rebuild_topology water_bonds coords_at_origin default_residue_only
    (unbuilt [O_; H1_; H2_]) None = Ok water.
Proof. vm_compute. reflexivity. Qed.

(** ** The property cache *)

Section PropertyFacts.
Context {coord Value : Type} `{EqDecision coord}.
Implicit Types (m : Molecule coord Value) (p : MolecularProperties coord Value).
Implicit Types (name : string).

Lemma props_contains_lookup p name :
  props_contains p name = true ↔ is_Some (props_lookup p name).
Proof.
  unfold props_contains, props_lookup, props_keys.
  rewrite bool_decide_eq_true, elem_of_union, elem_of_singleton, elem_of_dom.
  case_decide as Hname.
  - split; [eauto | by left].
  - rewrite fmap_is_Some. split; [by intros [? | ?] | by right].
Qed.

Lemma properties_matches m :
  geometry_matches (_properties m) m = true → properties m = (_properties m, m).
Proof. unfold properties. by intros ->. Qed.

Lemma properties_stale m :
  geometry_matches (_properties m) m = false →
  properties m = (new_properties m, with_properties m (new_properties m)).
Proof. unfold properties. by intros ->. Qed.

Lemma geometry_matches_new m :
  geometry_matches (new_properties m) (with_properties m (new_properties m)) = true.
Proof. unfold geometry_matches. by apply bool_decide_eq_true_2. Qed.

(** After a read the stored snapshot is the one read, at the current
    geometry; a second read changes nothing. *)
Lemma properties_read m :
  positions (properties m).1 = _positions m
  ∧ _properties (properties m).2 = (properties m).1
  ∧ _positions (properties m).2 = _positions m
  ∧ properties (properties m).2 = properties m.
Proof.
  destruct (geometry_matches (_properties m) m) eqn:Hgeo.
  - rewrite (properties_matches m Hgeo). simpl.
    rewrite (properties_matches m Hgeo).
    by apply bool_decide_eq_true in Hgeo.
  - rewrite (properties_stale m Hgeo). simpl.
    by rewrite (properties_matches (with_properties m (new_properties m))
                  (geometry_matches_new m)).
Qed.

(** [get_property] in terms of one read of the accessor. *)
Lemma get_property_read m name :
  get_property m name =
  (match props_lookup (properties m).1 name with
   | Some v => Ok v
   | None => Raise (not_calculated name)
   end, (properties m).2).
Proof.
  unfold get_property.
  destruct (properties_read m) as (Hpos & Hstored & Hcur & Hagain).
  destruct (properties m) as [p m1] eqn:Hread. simpl in *.
  destruct (props_contains p name) eqn:Hin.
  - rewrite Hagain, bool_decide_eq_true_2 by congruence.
    rewrite Hagain.
    apply props_contains_lookup in Hin as [v ->]. done.
  - destruct (props_lookup p name) as [v|] eqn:Hlook; [| done].
    assert (props_contains p name = true) by (apply props_contains_lookup; eauto).
    congruence.
Qed.





(** The [properties] setter does check the geometry and replace the cache. *)
Lemma properties_setter_checks m val :
  (positions val = _positions m →
   properties_setter m val = Ok (with_properties m val))
  ∧ (positions val ≠ _positions m → ∃ msg, properties_setter m val = Raise (AssertionError msg)).
Proof.
  unfold properties_setter, geometry_matches. split; intros Hgeo.
  - by rewrite bool_decide_eq_true_2.
  - rewrite bool_decide_eq_false_2 by done. eauto.
Qed.

Lemma with_properties_same m : with_properties m (_properties m) = m.
Proof. by destruct m. Qed.

(** [update_properties] checks the geometry, and then leaves the cache as
    a read of it leaves it: nothing of the snapshot gets in. *)
Lemma update_properties_Ok m props m' :
  update_properties m props = Ok m' →
  positions props = _positions m ∧ m' = (properties m).2.
Proof.
  unfold update_properties.
  destruct (properties_read m) as (Hpos & Hstored & Hcur & Hagain).
  destruct (properties m) as [p m1] eqn:Hread. simpl in *.
  case_bool_decide as Hgeo; [| discriminate].
  rewrite Hagain. intros [= <-]. split; [congruence |].
  unfold dict_update. simpl. rewrite (left_id_L ∅ (∪)).
  rewrite <- Hstored. destruct m1 as [? ? ? ? ? ? ? ? ? ? ? ? []]. done.
Qed.


End PropertyFacts.

(** ** Degrees of freedom *)

Lemma fold_left_remove_each {A} (P : A → Prop) `{∀ x, Decision (P x)} (c : Z)
    (l : list A) (df : Z) :
  fold_left (λ df x, if decide (P x) then df - c else df) l df
  = df - c * Z.of_nat (length (filter P l)).
Proof.
  revert df. induction l as [|x l IH]; intros df; simpl; [lia |].
  rewrite IH, filter_cons. destruct (decide (P x)); simpl; lia.
Qed.

Lemma fold_left_remove_sum {A} (f : A → Z) (l : list A) (df : Z) :
  fold_left (λ df x, df - f x) l df = df - foldr Z.add 0 (f <$> l).
Proof.
  revert df. induction l as [|x l IH]; intros df; csimpl; [lia |].
  rewrite IH. lia.
Qed.

Section DofFacts.
Context {coord Value : Type}.
Implicit Types (m : Molecule coord Value).

(** [dynamic_dof] in closed form. *)
Lemma dynamic_dof_closed_form m :
  _dof m = None →
  dynamic_dof m =
  ndims m
  - match integrator m with
    | None => 0
    | Some integ =>
        (if default false (remove_translation integ) then 3 else 0)
        + (if default false (remove_rotation integ)
           then (if decide (num_atoms m > 2) then 2 else 0)
           else 0)
        + match int_constraints integ with
          | None => 0
          | Some cs =>
              (if bool_decide ("hbonds" ∈ cs)
               then Z.of_nat (length (filter (λ a, atnum a = 1) (atoms m)))
               else 0)
              + (if bool_decide ("water" ∈ cs)
                 then (if bool_decide ("hbonds" ∈ cs) then 7 else 9)
                      * Z.of_nat (length (filter (λ r, res_type r = "water")
                                            (residues m)))
                 else 0)
          end
    end
  - foldr Z.add 0 (dof <$> constraints m).
Proof.
  unfold dynamic_dof. intros ->.
  rewrite fold_left_remove_sum.
  destruct (integrator m) as [integ|]; [| lia].
  destruct (int_constraints integ) as [cs|].
  - assert (Hwater : ∀ df,
      fold_left (λ df residue,
                   if decide (res_type residue = "water")
                   then (if bool_decide ("hbonds" ∈ cs) then df - 7 else df - 9)
                   else df) (residues m) df
      = df - (if bool_decide ("hbonds" ∈ cs) then 7 else 9)
             * Z.of_nat (length (filter (λ r, res_type r = "water") (residues m)))).
    { intros df. destruct (bool_decide ("hbonds" ∈ cs));
        apply (fold_left_remove_each (λ r, res_type r = "water")). }
    destruct (bool_decide ("water" ∈ cs)); rewrite ?Hwater;
      destruct (bool_decide ("hbonds" ∈ cs));
      rewrite ?(fold_left_remove_each (λ a, atnum a = 1));
      destruct (default false (remove_translation integ));
      destruct (default false (remove_rotation integ));
      try case_decide; lia.
  - destruct (default false (remove_translation integ));
      destruct (default false (remove_rotation integ));
      try case_decide; lia.
Qed.

(** C6, amended: an explicitly set [dynamic_dof] is returned as it is;
    otherwise it is [ndims] minus, with an integrator bound: 3 if the
    integrator removes translation; 2 if it removes rotation and the
    molecule has more than 2 atoms, and nothing for rotation otherwise;
    1 per hydrogen atom (atomic number 1) when ['hbonds'] is among the
    integrator's constraints; 7 per water residue when ['water'] is among
    them together with ['hbonds'], and 9 per water residue with ['water']
    alone; and, integrator or not, each constraint's own count. *)
Theorem dynamic_dof_ladder m :
  (∀ d, _dof m = Some d → dynamic_dof m = d)
  ∧ (_dof m = None →
     dynamic_dof m =
     ndims m
     - match integrator m with
       | None => 0
       | Some integ =>
           (if default false (remove_translation integ) then 3 else 0)
           + (if default false (remove_rotation integ)
              then (if decide (num_atoms m > 2) then 2 else 0)
              else 0)
           + match int_constraints integ with
             | None => 0
             | Some cs =>
                 (if bool_decide ("hbonds" ∈ cs)
                  then Z.of_nat (length (filter (λ a, atnum a = 1) (atoms m)))
                  else 0)
                 + (if bool_decide ("water" ∈ cs)
                    then (if bool_decide ("hbonds" ∈ cs) then 7 else 9)
                         * Z.of_nat (length (filter (λ r, res_type r = "water")
                                               (residues m)))
                    else 0)
             end
       end
     - foldr Z.add 0 (dof <$> constraints m)).
Proof.
  split; [unfold dynamic_dof; by intros d -> | apply dynamic_dof_closed_form].
Qed.

(** C7: a molecule of exactly 2 atoms, with an integrator that removes
    translation and rotation, no other constraints and no explicit
    override, has [dynamic_dof = 3]: of its 6 dimensions only the 3 of
    translation are removed, the rotation being guarded by
    [num_atoms > 2]. *)
Theorem diatomic_dynamic_dof m integ :
  length (atoms m) = 2%nat →
  ndims m = 3 * num_atoms m →
  _dof m = None →
  integrator m = Some integ →
  remove_translation integ = Some true →
  remove_rotation integ = Some true →
  (∀ cs, int_constraints integ = Some cs → ("hbonds" ∉ cs) ∧ ("water" ∉ cs)) →
  constraints m = [] →
  dynamic_dof m = 3.
Proof.
  intros Hatoms Hndims Hdof Hinteg Htrans Hrot Hcs Hnone.
  rewrite (dynamic_dof_closed_form m Hdof).
  rewrite Hndims, Hinteg, Htrans, Hrot, Hnone. unfold num_atoms. rewrite Hatoms.
  simpl. destruct (int_constraints integ) as [cs|]; [| done].
  destruct (Hcs cs eq_refl) as [Hh Hw].
  by rewrite !bool_decide_eq_false_2.
Qed.
End DofFacts.

(** ** Constraints *)

Section ConstraintFacts.
Context {coord Value : Type}.
Variable new_constraint : ConstraintKind → list Atom → option Value → result (Constraint Value).
Implicit Types (m : Molecule coord Value).

Lemma reset_methods_flags m :
  (int_prepped <$> integrator (_reset_methods m)) = ((λ _, false) <$> integrator m)
  ∧ (em_prepped <$> energy_model (_reset_methods m)) = ((λ _, false) <$> energy_model m)
  ∧ constraints (_reset_methods m) = constraints m
  ∧ atoms (_reset_methods m) = atoms m
  ∧ _positions (_reset_methods m) = _positions m.
Proof.
  unfold _reset_methods.
  destruct (energy_model m) as [em|] eqn:Hem; destruct (integrator m) as [i|] eqn:Hi;
    simpl; rewrite ?Hem, ?Hi; simpl; rewrite ?Hem, ?Hi; done.
Qed.

Lemma append_constraint_added m c :
  constraint_added m (Ok c) (append_constraint m c).
Proof.
  unfold append_constraint, constraint_added.
  destruct (reset_methods_flags (with_constraints m (constraints m ++ [c])))
    as (Hi & Hem & Hcs & Hatoms & Hpos).
  rewrite Hcs. simpl. rewrite last_snoc. eexists. split; [done |].
  by rewrite Hcs, Hi, Hem, Hatoms, Hpos.
Qed.

(** C8, amended: every constraint-adding operation (fixed position,
    distance, angle, dihedral) hands the atoms and the target value, given
    or not, to the constraint's constructor, and raises what the
    constructor raises.  When the constructor returns a constraint, the
    operation appends it at the end of the constraint list, resets the
    prepared flag of the bound energy model and of the bound integrator,
    and returns the constraint.  The molecule itself checks nothing about
    the atoms: the outcome is the same for every molecule as far as the
    constructor is concerned, whether the atoms belong to it or not. *)
Theorem constrain_appends m a1 a2 a3 a4 value :
  constraint_added m (new_constraint FixedPosition [a1] value)
    (constrain_atom new_constraint m a1 value)
  ∧ constraint_added m (new_constraint DistanceConstraint [a1; a2] value)
      (constrain_distance new_constraint m a1 a2 value)
  ∧ constraint_added m (new_constraint AngleConstraint [a1; a2; a3] value)
      (constrain_angle new_constraint m a1 a2 a3 value)
  ∧ constraint_added m (new_constraint DihedralConstraint [a1; a2; a3; a4] value)
      (constrain_dihedral new_constraint m a1 a2 a3 a4 value)
  ∧ ∀ m2 : Molecule coord Value,
      (succeeds (constrain_atom new_constraint m a1 value)
       ↔ succeeds (constrain_atom new_constraint m2 a1 value))
      ∧ (succeeds (constrain_distance new_constraint m a1 a2 value)
         ↔ succeeds (constrain_distance new_constraint m2 a1 a2 value))
      ∧ (succeeds (constrain_angle new_constraint m a1 a2 a3 value)
         ↔ succeeds (constrain_angle new_constraint m2 a1 a2 a3 value))
      ∧ (succeeds (constrain_dihedral new_constraint m a1 a2 a3 a4 value)
         ↔ succeeds (constrain_dihedral new_constraint m2 a1 a2 a3 a4 value)).
Proof.
  assert (Hadded : ∀ m kind args,
    constraint_added m (new_constraint kind args value)
      (new_constraint kind args value ≫= append_constraint m)).
  { intros m0 kind args. destruct (new_constraint kind args value) as [c|e] eqn:Hmade.
    - apply append_constraint_added.
    - done. }
  assert (Hsame : ∀ m1 m2 kind args,
    succeeds (new_constraint kind args value ≫= append_constraint m1)
    → succeeds (new_constraint kind args value ≫= append_constraint m2)).
  { intros m1 m2 kind args [r Hr].
    pose proof (Hadded m2 kind args) as H2.
    destruct (new_constraint kind args value) as [c|e]; [| discriminate].
    destruct H2 as (m' & -> & _). by eexists. }
  repeat split; try apply Hadded; apply Hsame.
Qed.
End ConstraintFacts.

(** ** The theorems at work *)






(** C4: [update_properties] accepts a snapshot at the current geometry and
    then leaves the cache as it was: the snapshot's potential energy is not
    cached, and asking for it raises [NotCalculatedError]. *)
Theorem update_properties_drops_snapshot :
  update_properties h2 (mkProps [0; 0; 0; 0; 0; 74] {[ "potential_energy" := 42 ]}) = Ok h2
  ∧ _properties h2 = mkProps [0; 0; 0; 0; 0; 74] ∅
  ∧ (get_property h2 "potential_energy").1 = Raise (not_calculated "potential_energy").
Proof. vm_compute. repeat split. Qed.

(** C5: [calculate] with [wait=True] merges the result of a job that
    finished for another geometry without any error: the result overwrites
    the cache, positions included, and the next read of the cache drops it
    whole, so that [calculate] returns an empty snapshot and the dipole
    cached before is gone as well. *)
Theorem calculate_merges_stale_result :
  ∃ m',
    em_calculate late_model (_positions h2_late) {[ "potential_energy" ]}
    = Ok (JobHandle (mkDict (Some [0; 0; 0; 0; 0; 80]) {[ "potential_energy" := 42 ]}))
    ∧ calculate h2_late (Some ["potential_energy"]) true true
      = Ok (ReturnProperties (mkProps [0; 0; 0; 0; 0; 74] ∅), m')
    ∧ _positions m' = [0; 0; 0; 0; 0; 74]
    ∧ _properties m' = mkProps [0; 0; 0; 0; 0; 74] ∅.
Proof. eexists. vm_compute. repeat split. Qed.

Lemma dynamic_dof_ladder_witness :
  dynamic_dof wet = 9 - (3 + 2 + (2 + 7 * 1)) - 1
  ∧ dynamic_dof (set_dynamic_dof wet 5) = 5.
Proof.
  split.
  - rewrite (proj2 (dynamic_dof_ladder wet) eq_refl). reflexivity.
  - apply (proj1 (dynamic_dof_ladder (set_dynamic_dof wet 5)) 5). reflexivity.
Defined.

(** C6 fails as it is stated: whatever "2 or 3 depending on atom count"
    and "per hydrogen bond" stand for, the code takes nothing off for the
    rotation of a molecule of 2 atoms. *)
Lemma dynamic_dof_rotation_not_2_or_3 :
  ¬ ∃ (rotation : Z → Z) (hydrogen_bonds : Molecule Z Z → Z),
      (∀ n, rotation n = 2 ∨ rotation n = 3)
      ∧ ∀ m : Molecule Z Z,
          _dof m = None → dynamic_dof m = dynamic_dof_spec rotation hydrogen_bonds m.
Proof.
  intros (rotation & hydrogen_bonds & Hrot & Hclaim).
  specialize (Hclaim (h2_with None (Some spinning_only)) eq_refl).
  unfold dynamic_dof, dynamic_dof_spec in Hclaim. simpl in Hclaim.
  change (num_atoms _) with 2 in Hclaim.
  destruct (Hrot 2); lia.
Qed.

Lemma diatomic_dynamic_dof_witness :
  dynamic_dof (h2_with None (Some thermostat)) = 3.
Proof.
  apply (diatomic_dynamic_dof (h2_with None (Some thermostat)) thermostat).
  - reflexivity.
  - reflexivity.
  - reflexivity.
  - reflexivity.
  - reflexivity.
  - reflexivity.
  - intros cs Hcs. vm_compute in Hcs. discriminate.
  - reflexivity.
Defined.

Lemma constrain_appends_witness :
  (∃ m', constrain_atom plain_constraint h2 H1_ None
         = Ok (mkConstraint FixedPosition [H1_] 0 3, m')
         ∧ constraints m' = [mkConstraint FixedPosition [H1_] 0 3])
  ∧ succeeds (constrain_atom plain_constraint lone_oxygen H1_ None).
Proof.
  pose proof (constrain_appends plain_constraint h2 H1_ H1_ H1_ H1_ None)
    as (Hatom & _ & _ & _ & Hsame).
  split.
  - destruct Hatom as (m' & Hrun & Hcs & _). exists m'. split; [exact Hrun | exact Hcs].
  - apply (Hsame lone_oxygen). destruct Hatom as (m' & Hrun & _). by eexists.
Defined.

(** C8 fails as it is stated: [H1_] is an atom of [h2] and not of
    [lone_oxygen], and the constructor is called alike by both; whatever
    the constructor does, [constrain_atom] cannot accept the atom for its
    own molecule and reject it for the other. *)
Lemma constrain_atom_accepts_foreign_atom :
  ¬ ∃ new_constraint : ConstraintKind → list Atom → option Z → result (Constraint Z),
      succeeds (constrain_atom new_constraint h2 H1_ None)
      ∧ fails (constrain_atom new_constraint lone_oxygen H1_ None).
Proof.
  intros (new_constraint & [r Hr] & [e He]).
  unfold constrain_atom in *.
  destruct (new_constraint FixedPosition [H1_] None) as [c|e']; [| discriminate].
  vm_compute in He. discriminate.
Qed.



(** * More of the molecule, verified *)

(** ** Atom indices and slices *)

Lemma lookup_slice_assign {A} (start stop : nat) (v : A) (arr : list A) (k : nat) :
  slice_assign start stop v arr !! k
  = (λ x, if decide (start ≤ k < stop)%nat then v else x) <$> arr !! k.
Proof. unfold slice_assign. by rewrite list_lookup_imap. Qed.

Lemma lookup_bind_replicate3 {A B} (f : A → B) (l : list A) (k : nat) :
  (l ≫= λ a, replicate 3 (f a)) !! k = f <$> l !! (k `div` 3)%nat.
Proof.
  revert k. induction l as [|a l IH]; intros k; [done |].
  change ((a :: l) ≫= λ a, replicate 3 (f a))
    with ([f a; f a; f a] ++ (l ≫= λ a, replicate 3 (f a))).
  destruct (decide (k < 3)%nat) as [Hlt | Hge].
  - rewrite (Nat.div_small k 3) by done.
    destruct k as [|[|[|k]]]; [done | done | done | lia].
  - rewrite lookup_app_r by (simpl; lia).
    rewrite IH.
    replace (k `div` 3)%nat with (S ((k - 3) `div` 3)); [done |].
    replace k with ((k - 3) + 1 * 3)%nat at 2 by lia.
    rewrite Nat.div_add by done. lia.
Qed.

Section IndexFacts.
Context {coord Mass : Type}.
Variable mass : Atom → Mass.
Variable index_into_molecule : string → Atom → nat * nat → list coord → list coord.

Local Abbreviation step := (assign_atom (coord := coord) mass index_into_molecule).
Local Arguments Nat.mul : simpl never.
Local Arguments Nat.add : simpl never.
Local Arguments Nat.div : simpl never.
Local Arguments Nat.sub : simpl never.

(** The loop from counters [i0] and [3 * i0]. *)
Lemma assign_atoms_from (l : list Atom) (i0 : nat) (s : AtomIndexing coord Mass) :
  let r := fold_left step l (i0, (3 * i0)%nat, s) in
  r.1 = ((i0 + length l)%nat, (3 * (i0 + length l))%nat)
  ∧ parents_set r.2 = parents_set s ++ l
  ∧ (NoDup l → ∀ j a, l !! j = Some a →
       atom_index r.2 !! a = Some (i0 + j)%nat
       ∧ parent_slice r.2 !! a = Some ((3 * (i0 + j))%nat, (3 * (i0 + j) + 3)%nat))
  ∧ (∀ a, a ∉ l →
       atom_index r.2 !! a = atom_index s !! a
       ∧ parent_slice r.2 !! a = parent_slice s !! a)
  ∧ length (dim_masses r.2) = length (dim_masses s)
  ∧ (∀ k, dim_masses r.2 !! k
          = if decide (3 * i0 ≤ k < 3 * (i0 + length l))%nat
            then (dim_masses s !! k ≫= λ _, mass <$> l !! (k `div` 3 - i0)%nat)
            else dim_masses s !! k).
Proof.
  revert i0 s. induction l as [|x l IH]; intros i0 s; cbv zeta in *; simpl.
  - rewrite Nat.add_0_r. split; [done |]. split; [by rewrite app_nil_r |].
    split; [intros _ j a Hj; by rewrite lookup_nil in Hj |].
    split; [done |]. split; [done |]. intros k.
    rewrite decide_False by lia. done.
  - replace (3 * i0 + 3)%nat with (3 * S i0)%nat by lia.
    specialize (IH (S i0)
      (mkIndexing (parents_set s ++ [x]) (<[x := i0]> (atom_index s))
         (<[x := ((3 * i0)%nat, (3 * S i0)%nat)]> (parent_slice s))
         (slice_assign (3 * i0) (3 * S i0) (mass x) (dim_masses s))
         (index_into_molecule "_position" x ((3 * i0)%nat, (3 * S i0)%nat) (idx_positions s))
         (index_into_molecule "_momentum" x ((3 * i0)%nat, (3 * S i0)%nat) (idx_momenta s)))).
    simpl in IH. destruct IH as (Hcount & Hparents & Hin & Hout & Hlen & Hmass).
    split; [rewrite Hcount; f_equal; lia |].
    split; [by rewrite Hparents, <- app_assoc |]. split; [| split; [| split]].
    + intros Hnd j a Hj. apply NoDup_cons in Hnd as [Hx Hnd].
      destruct j as [|j]; simpl in Hj.
      * simplify_eq. destruct (Hout a Hx) as [-> ->].
        rewrite !lookup_insert_eq, Nat.add_0_r.
        replace (3 * S i0)%nat with (3 * i0 + 3)%nat by lia. done.
      * destruct (Hin Hnd j a Hj) as [-> ->].
        replace (S i0 + j)%nat with (i0 + S j)%nat by lia. done.
    + intros a Ha. apply not_elem_of_cons in Ha as [Hne Ha].
      destruct (Hout a Ha) as [-> ->]. by rewrite !lookup_insert_ne.
    + rewrite Hlen. unfold slice_assign. by rewrite length_imap.
    + intros k. rewrite Hmass, lookup_slice_assign.
      destruct (dim_masses s !! k) as [old|] eqn:Hold; simpl;
        [| by repeat case_decide].
      destruct (decide (3 * i0 ≤ k < 3 * S i0)%nat) as [Hx | Hx].
      * rewrite decide_False by lia. rewrite decide_True by lia.
        replace (k `div` 3 - i0)%nat with 0%nat; [done |].
        assert (k `div` 3 = i0)%nat; [| lia].
        symmetry. apply (Nat.div_unique k 3 i0 (k - 3 * i0)); lia.
      * destruct (decide (3 * S i0 ≤ k < 3 * (S i0 + length l))%nat) as [Hl | Hl].
        -- rewrite decide_True by lia.
           assert (S i0 ≤ k `div` 3)%nat by (apply Nat.div_le_lower_bound; lia).
           replace (k `div` 3 - i0)%nat with (S (k `div` 3 - S i0)) by lia. done.
        -- rewrite decide_False by lia. done.
Qed.

(** X1: for atoms that are all different, [_assign_atom_indices] hands
    each atom of the list to [_set_parent] and gives the atom at place [i]
    the index [i] and the slice from [3 i] to [3 i + 3]; what it knew of
    other atoms stays; and each dimension below three times the number of
    atoms lies in the slice of exactly one atom of the list, the one at
    place [k / 3]. *)
Theorem assign_atom_indices_slices (atomlist : list Atom) (s : AtomIndexing coord Mass) :
  NoDup atomlist →
  let r := _assign_atom_indices mass index_into_molecule atomlist s in
  parents_set r = parents_set s ++ atomlist
  ∧ (∀ i a, atomlist !! i = Some a →
     atom_index r !! a = Some i
     ∧ parent_slice r !! a = Some ((3 * i)%nat, (3 * i + 3)%nat))
  ∧ (∀ a, a ∉ atomlist →
       atom_index r !! a = atom_index s !! a ∧ parent_slice r !! a = parent_slice s !! a)
  ∧ (∀ k, (k < 3 * length atomlist)%nat →
       ∃ a, atomlist !! (k `div` 3)%nat = Some a
            ∧ ∀ b start stop, b ∈ atomlist → parent_slice r !! b = Some (start, stop) →
                ((start ≤ k < stop)%nat ↔ b = a)).
Proof.
  intros Hnd r. subst r. unfold _assign_atom_indices.
  destruct (assign_atoms_from atomlist 0 s) as (_ & Hparents & Hin & Hout & _).
  specialize (Hin Hnd). change (3 * 0)%nat with 0%nat in Hparents, Hin, Hout.
  split; [exact Hparents |]. split; [| split; [exact Hout |]].
  - intros i a Hi. destruct (Hin i a Hi) as [Hidx Hsl].
    rewrite Nat.add_0_l in Hidx, Hsl. done.
  - intros k Hk.
    assert (Hdiv : (k `div` 3 < length atomlist)%nat)
      by (apply Nat.Div0.div_lt_upper_bound; lia).
    destruct (lookup_lt_is_Some_2 atomlist _ Hdiv) as [a Ha]. exists a. split; [done |].
    intros b start stop [j Hj]%list_elem_of_lookup Hslice.
    destruct (Hin j b Hj) as [_ Hb]. rewrite Nat.add_0_l in Hb.
    rewrite Hb in Hslice. simplify_eq.
    split.
    + intros Hrange. assert (k `div` 3 = j)%nat as Hj'.
      { symmetry. apply (Nat.div_unique k 3 j (k - 3 * j)); lia. }
      rewrite Hj' in Ha. congruence.
    + intros ->. assert (j = k `div` 3)%nat as ->.
      { eapply NoDup_lookup; eauto. }
      pose proof (Nat.div_mod_eq k 3). pose proof (Nat.mod_upper_bound k 3). lia.
Qed.

(** X2: on a mass array of three entries per atom, [_assign_atom_indices]
    leaves each atom's mass in its three dimensions, in the order of the
    list; the array keeps its length whatever it is. *)
Theorem assign_atom_indices_masses (atomlist : list Atom) (s : AtomIndexing coord Mass) :
  let r := _assign_atom_indices mass index_into_molecule atomlist s in
  length (dim_masses r) = length (dim_masses s)
  ∧ (length (dim_masses s) = (3 * length atomlist)%nat →
     dim_masses r = atomlist ≫= λ a, replicate 3 (mass a)).
Proof.
  intros r. subst r. unfold _assign_atom_indices.
  destruct (assign_atoms_from atomlist 0 s) as (_ & _ & _ & _ & Hlen & Hmass).
  change (3 * 0)%nat with 0%nat in Hlen, Hmass.
  split; [exact Hlen |].
  intros Hsize. apply list_eq. intros k.
  rewrite Hmass, lookup_bind_replicate3, Nat.sub_0_r, Nat.add_0_l.
  destruct (decide (k < 3 * length atomlist)%nat) as [Hk | Hk].
  - rewrite decide_True by lia.
    destruct (lookup_lt_is_Some_2 (dim_masses s) k) as [old ->]; [lia | done].
  - rewrite decide_False by lia.
    rewrite (lookup_ge_None_2 (dim_masses s)) by lia.
    rewrite (lookup_ge_None_2 atomlist); [done |].
    apply Nat.div_le_lower_bound; lia.
Qed.
End IndexFacts.

(** ** Adding atoms *)

(** On a symmetric graph the loop of [addatoms] that mirrors the bonds of
    the new atoms finds them all mirrored and changes nothing. *)
Lemma mirror_new_bonds_same (old : BondGraph) (atomlist : list Atom) (newatom : Atom)
    (bonds : BondGraph) :
  symmetric_on atomlist bonds → newatom ∈ atomlist → is_Some (bonds !! newatom) →
  mirror_new_bonds old newatom bonds = Ok bonds.
Proof.
  intros Hsym Hnew [new_bonds Hbonds]. unfold mirror_new_bonds.
  rewrite (proj2 (getitem_Ok _ _ _) Hbonds). simpl.
  destruct (for_each_succeeds (λ s, s = bonds) (mirror_new_bond old newatom)
              (keys new_bonds) bonds) as (s' & -> & ->); [done | | done].
  intros nbr s [k Hk]%elem_of_keys ->. exists bonds. split; [| done].
  unfold mirror_new_bond. case_decide; [| done].
  rewrite (proj2 (getitem_Ok _ _ _) Hbonds). simpl.
  rewrite (proj2 (getitem_Ok _ _ _) Hk). simpl.
  assert (Hback : order bonds nbr newatom = Some k).
  { apply (Hsym newatom nbr k Hnew). apply order_Some. eauto. }
  apply order_Some in Hback as (nbr_bonds & Hnbr & Hentry).
  rewrite (proj2 (getitem_Ok _ _ _) Hnbr). simpl.
  by rewrite (insert_id nbr_bonds), (insert_id bonds).
Qed.

Section AddAtomsFacts.
Context {coord Value : Type} `{EqDecision coord}.
Variable bond_graph_of : Atom → option Adjacency.
Variable atom_positions : list Atom → list coord.
Variable assign_residue_indices : list Atom → list Residue → result (list Residue * bool).
Implicit Types (m : Molecule coord Value).

Local Abbreviation add :=
  (addatoms (Value := Value) bond_graph_of atom_positions assign_residue_indices).

Lemma reset_methods_fields m :
  atoms (_reset_methods m) = atoms m
  ∧ bond_graph (_reset_methods m) = bond_graph m
  ∧ residues (_reset_methods m) = residues m
  ∧ _properties (_reset_methods m) = _properties m
  ∧ constraints (_reset_methods m) = constraints m
  ∧ charge (_reset_methods m) = charge m
  ∧ (em_prepped <$> energy_model (_reset_methods m)) = ((λ _, false) <$> energy_model m)
  ∧ (int_prepped <$> integrator (_reset_methods m)) = ((λ _, false) <$> integrator m).
Proof.
  unfold _reset_methods.
  destruct (energy_model m) as [em|] eqn:Hem; destruct (integrator m) as [i|] eqn:Hi;
    simpl; rewrite ?Hem, ?Hi; simpl; rewrite ?Hem, ?Hi; done.
Qed.

(** What a successful [addatoms] has done. *)
Lemma addatoms_inv has_parent m newatoms m' :
  add has_parent m newatoms = Ok m' →
  existsb has_parent newatoms = false
  ∧ _build_bonds bond_graph_of (atoms m ++ newatoms) = Ok (bond_graph m')
  ∧ atoms m' = atoms m ++ newatoms
  ∧ ndims m' = 3 * num_atoms m'
  ∧ _dof m' = None
  ∧ _positions m' = atom_positions (atoms m ++ newatoms)
  ∧ _properties m' = _properties m
  ∧ constraints m' = constraints m
  ∧ charge m' = charge m
  ∧ (em_prepped <$> energy_model m') = ((λ _, false) <$> energy_model m)
  ∧ (int_prepped <$> integrator m') = ((λ _, false) <$> integrator m).
Proof.
  unfold addatoms. intros Hrun.
  destruct (existsb has_parent newatoms) eqn:Hparent; [discriminate |].
  destruct (reset_methods_fields m) as (Hatoms & Hg & Hres & Hprops & Hcs & Hchg & Hem & Hint).
  simpl in Hrun. rewrite Hatoms in Hrun.
  apply bind_Ok in Hrun as (bonds & Hbuild & Hrun).
  apply bind_Ok in Hrun as (bonds' & Hmirror & Hrun).
  assert (bonds' = bonds) as ->.
  { pose proof Hbuild as (_ & Hkeys & _ & Hsym)%build_bonds_Ok.
    destruct (for_each_succeeds (λ s, s = bonds) (mirror_new_bonds (bond_graph (_reset_methods m)))
                newatoms bonds) as (s' & Hs' & ->); [done | | congruence].
    intros x s Hx ->. exists bonds. split; [| done].
    assert (x ∈ atoms m ++ newatoms) by (apply elem_of_app; by right).
    apply (mirror_new_bonds_same _ (atoms m ++ newatoms)); [done | done |].
    by apply Hkeys. }
  unfold _rebuild_topology in Hrun. simpl in Hrun.
  apply bind_Ok in Hrun as ([res bio] & _ & Hrun).
  case_decide; [| discriminate]. simplify_eq. simpl.
  unfold num_atoms. simpl. by rewrite Hprops, Hcs, Hchg, Hem, Hint.
Qed.

(** X3: after a successful [addatoms] the atom list is the old one
    followed by the new atoms, none of which had a parent, and no atom is
    in it twice; the molecule has three dimensions per atom, any explicit
    [dynamic_dof] is forgotten, and the bound energy model and integrator
    are marked unprepared.  The constraints, the charge and the stored
    property snapshot are the old ones. *)
Theorem addatoms_extends has_parent m newatoms m' :
  add has_parent m newatoms = Ok m' →
  atoms m' = atoms m ++ newatoms
  ∧ NoDup (atoms m ++ newatoms)
  ∧ (∀ a, a ∈ newatoms → has_parent a = false)
  ∧ ndims m' = 3 * (num_atoms m + Z.of_nat (length newatoms))
  ∧ _dof m' = None
  ∧ constraints m' = constraints m
  ∧ charge m' = charge m
  ∧ _properties m' = _properties m
  ∧ (em_prepped <$> energy_model m') = ((λ _, false) <$> energy_model m)
  ∧ (int_prepped <$> integrator m') = ((λ _, false) <$> integrator m).
Proof.
  intros (Hparent & Hbuild & Hatoms & Hdims & Hdof & _ & Hprops & Hcs & Hchg & Hem & Hint)%addatoms_inv.
  apply build_bonds_Ok in Hbuild as (Hnd & _).
  split; [done |]. split; [done |]. split.
  { intros a Ha. destruct (has_parent a) eqn:Hp; [| done].
    assert (existsb has_parent newatoms = true); [| congruence].
    apply existsb_exists. exists a. split; [by apply list_elem_of_In | done]. }
  split; [| done].
  rewrite Hdims. unfold num_atoms. rewrite Hatoms, length_app. lia.
Qed.

(** X4: the bond graph after a successful [addatoms] is the one
    [_build_bonds] makes of the extended atom list (the further loop over
    the new atoms changes nothing in it): its keys are the atoms, every bond
    an atom came with is in it, and it is symmetric, so that a bond which
    only the new atom lists is also in the map of the old atom. *)
Theorem addatoms_bond_graph has_parent m newatoms m' :
  add has_parent m newatoms = Ok m' →
  _build_bonds bond_graph_of (atoms m') = Ok (bond_graph m')
  ∧ (∀ a, a ∈ atoms m' ↔ is_Some (bond_graph m' !! a))
  ∧ (∀ a adj b k, a ∈ atoms m' → bond_graph_of a = Some adj → adj !! b = Some k →
       order (bond_graph m') a b = Some k ∧ order (bond_graph m') b a = Some k)
  ∧ (∀ a b k, order (bond_graph m') a b = Some k → order (bond_graph m') b a = Some k).
Proof.
  intros (_ & Hbuild & Hatoms & _)%addatoms_inv. rewrite Hatoms.
  split; [done |].
  apply build_bonds_Ok in Hbuild as (_ & Hkeys & Hkeep & Hsym).
  split; [done |]. split.
  - intros a adj b k Ha Hadj Hb.
    pose proof (Hkeep a adj b k Ha Hadj Hb) as Hab. split; [done |].
    by apply Hsym.
  - intros a b k Hab. apply Hsym; [| done].
    apply Hkeys. apply order_Some in Hab as (? & ? & _). eauto.
Qed.

(** X24: adding atoms outdates the property snapshot.  When the snapshot
    and the atoms have three coordinates per atom, a successful [addatoms]
    of at least one atom leaves a snapshot that no longer matches the
    geometry: the next read of [properties] returns an empty snapshot of
    the new positions, and every property but ['positions'] is then not
    calculated, whatever was cached before. *)
Theorem addatoms_outdates_snapshot has_parent m newatoms m' :
  add has_parent m newatoms = Ok m' →
  newatoms ≠ [] →
  (∀ atomlist, length (atom_positions atomlist) = (3 * length atomlist)%nat) →
  length (positions (_properties m)) = (3 * length (atoms m))%nat →
  geometry_matches (_properties m') m' = false
  ∧ (properties m').1 = mkProps (_positions m') ∅
  ∧ ∀ name, name ≠ "positions" →
      (get_property m' name).1 = Raise (not_calculated name).
Proof.
  intros Hrun Hnew Hthree Hsnapshot.
  apply addatoms_inv in Hrun
    as (_ & _ & _ & _ & _ & Hpos & Hprops & _).
  assert (Hstale : geometry_matches (_properties m') m' = false).
  { unfold geometry_matches. apply bool_decide_eq_false_2. intros Hsame.
    apply (f_equal length) in Hsame.
    rewrite Hprops, Hpos, Hthree, Hsnapshot, length_app in Hsame.
    destruct newatoms; [done | simpl in Hsame; lia]. }
  split; [done |].
  split; [by rewrite (properties_stale m' Hstale) |].
  intros name Hname. rewrite get_property_read, (properties_stale m' Hstale). simpl.
  unfold props_lookup. simpl. rewrite decide_False by done. by rewrite lookup_empty.
Qed.
End AddAtomsFacts.

(** ** Deleting a bond *)

Lemma order_insert (g : BondGraph) (a : Atom) (adj : Adjacency) (x y : Atom) :
  order (<[a := adj]> g) x y = if decide (a = x) then adj !! y else order g x y.
Proof.
  unfold order. rewrite lookup_insert. by case_decide.
Qed.

Lemma order_lookup (g : BondGraph) (a : Atom) (adj : Adjacency) (y : Atom) :
  g !! a = Some adj → order g a y = adj !! y.
Proof. unfold order. by intros ->. Qed.

Lemma adjacency_sizes_insert (g : BondGraph) (a : Atom) (old new : Adjacency) :
  g !! a = Some old →
  (adjacency_sizes (<[a := new]> g) + size old = adjacency_sizes g + size new)%nat.
Proof.
  intros Ha. unfold adjacency_sizes.
  rewrite <- (insert_delete_eq g a new).
  rewrite <- (insert_id g a old Ha) at 2. rewrite <- (insert_delete_eq g a old).
  rewrite !map_to_list_insert by apply lookup_delete_eq. simpl. lia.
Qed.

Section DeleteBondFacts.
Context {coord Value : Type}.
Implicit Types (m : Molecule coord Value).

(** X5: [deletebond] succeeds exactly for two different atoms each of
    which lists the other.  It then removes the two entries and nothing
    else from the bond graph; it leaves [num_bonds], which so counts one
    bond too many against the graph, and the prepared flags as they
    were. *)
Theorem deletebond_removes_pair m a1 a2 :
  ((deletebond m a1 a2).1 = Ok ()
   ↔ a1 ≠ a2 ∧ is_Some (order (bond_graph m) a1 a2) ∧ is_Some (order (bond_graph m) a2 a1))
  ∧ ((deletebond m a1 a2).1 = Ok () →
     let m' := (deletebond m a1 a2).2 in
     order (bond_graph m') a1 a2 = None
     ∧ order (bond_graph m') a2 a1 = None
     ∧ (∀ x y, (x, y) ≠ (a1, a2) → (x, y) ≠ (a2, a1) →
          order (bond_graph m') x y = order (bond_graph m) x y)
     ∧ (adjacency_sizes (bond_graph m') + 2 = adjacency_sizes (bond_graph m))%nat
     ∧ num_bonds m' = num_bonds m
     ∧ atoms m' = atoms m
     ∧ energy_model m' = energy_model m
     ∧ integrator m' = integrator m).
Proof.
  unfold deletebond, dict_pop, getitem.
  destruct (bond_graph m !! a1) as [adj1|] eqn:H1; simpl.
  2: { split; [| discriminate]. split; [discriminate |].
       intros (_ & [k Hk] & _). apply order_Some in Hk as (? & ? & _). congruence. }
  destruct (adj1 !! a2) as [k1|] eqn:H12; simpl.
  2: { split; [| discriminate]. split; [discriminate |].
       intros (_ & [k Hk] & _). apply order_Some in Hk as (? & ? & ?). congruence. }
  rewrite lookup_insert.
  destruct (decide (a1 = a2)) as [<- | Hne]; simpl.
  { rewrite lookup_delete_eq. simpl. split; [| discriminate].
    split; [discriminate | by intros [? _]]. }
  destruct (bond_graph m !! a2) as [adj2|] eqn:H2; simpl.
  2: { split; [| discriminate]. split; [discriminate |].
       intros (_ & _ & [k Hk]). apply order_Some in Hk as (? & ? & _). congruence. }
  destruct (adj2 !! a1) as [k2|] eqn:H21; simpl.
  2: { split; [| discriminate]. split; [discriminate |].
       intros (_ & _ & [k Hk]). apply order_Some in Hk as (? & ? & ?). congruence. }
  split.
  - split; [intros _ | done]. split; [done |].
    split; eexists; apply order_Some; eauto.
  - intros _. rewrite !order_insert.
    rewrite (decide_False (P := a2 = a1)) by done.
    rewrite !decide_True by done. rewrite !lookup_delete_eq.
    split; [done |]. split; [done |]. split; [| split; [| done]].
    + intros x y Hxy Hyx. rewrite !order_insert.
      destruct (decide (a2 = x)) as [<- | Hx2].
      * rewrite lookup_delete_ne by congruence. by rewrite (order_lookup _ _ adj2).
      * destruct (decide (a1 = x)) as [<- | Hx1]; [| done].
        rewrite lookup_delete_ne by congruence. by rewrite (order_lookup _ _ adj1).
    + pose proof (adjacency_sizes_insert (bond_graph m) a1 adj1 (delete a2 adj1) H1) as Hs1.
      pose proof (adjacency_sizes_insert (<[a1 := delete a2 adj1]> (bond_graph m)) a2 adj2
                    (delete a1 adj2)) as Hs2.
      rewrite lookup_insert_ne in Hs2 by done. specialize (Hs2 H2).
      pose proof (map_size_delete a2 adj1) as Hd1. rewrite H12 in Hd1.
      pose proof (map_size_delete a1 adj2) as Hd2. rewrite H21 in Hd2.
      assert (size adj1 ≠ 0)%nat by (intros ?%map_size_empty_inv; simplify_map_eq).
      assert (size adj2 ≠ 0)%nat by (intros ?%map_size_empty_inv; simplify_map_eq).
      lia.
Qed.

(** X6: when [deletebond] raises, it raises [KeyError].  If the first atom
    does not list the second, the molecule is as before; otherwise the
    first atom's entry is gone when the error is raised, as for a bond of
    an atom with itself. *)
Theorem deletebond_raises m a1 a2 e :
  (deletebond m a1 a2).1 = Raise e →
  e = KeyError
  ∧ (order (bond_graph m) a1 a2 = None → (deletebond m a1 a2).2 = m)
  ∧ (is_Some (order (bond_graph m) a1 a2) →
     let m' := (deletebond m a1 a2).2 in
     order (bond_graph m') a1 a2 = None
     ∧ ∀ x y, (x, y) ≠ (a1, a2) →
         order (bond_graph m') x y = order (bond_graph m) x y).
Proof.
  unfold deletebond, dict_pop, getitem.
  destruct (bond_graph m !! a1) as [adj1|] eqn:H1; simpl.
  2: { intros [= <-]. split; [done |]. split; [done |].
       intros [k Hk]. apply order_Some in Hk as (? & ? & _). congruence. }
  destruct (adj1 !! a2) as [k1|] eqn:H12; simpl.
  2: { intros [= <-]. split; [done |]. split; [done |].
       intros [k Hk]. apply order_Some in Hk as (? & ? & ?). congruence. }
  assert (Hgone :
            order (<[a1 := delete a2 adj1]> (bond_graph m)) a1 a2 = None
            ∧ ∀ x y, (x, y) ≠ (a1, a2) →
                order (<[a1 := delete a2 adj1]> (bond_graph m)) x y
                = order (bond_graph m) x y).
  { rewrite order_insert, decide_True, lookup_delete_eq by done.
    split; [done |]. intros x y Hxy. rewrite order_insert.
    destruct (decide (a1 = x)) as [<- | Hx]; [| done].
    rewrite lookup_delete_ne by congruence. by rewrite (order_lookup _ _ adj1). }
  assert (Hhave : order (bond_graph m) a1 a2 = Some k1) by (apply order_Some; eauto).
  destruct (<[a1:=delete a2 adj1]> (bond_graph m) !! a2) as [adj2|] eqn:H2; simpl.
  2: { intros [= <-]. split; [done |]. split; [by rewrite Hhave |].
       intros _. exact Hgone. }
  destruct (adj2 !! a1) as [k2|] eqn:H21; simpl; [discriminate |].
  intros [= <-]. split; [done |]. split; [by rewrite Hhave |].
  intros _. exact Hgone.
Qed.
End DeleteBondFacts.

(** ** Iterating over the bonds *)

Lemma length_bind {A B} (f : A → list B) (l : list A) :
  length (l ≫= f) = sum_list_with (λ x, length (f x)) l.
Proof.
  induction l as [|x l IH]; [done |].
  rewrite bind_cons, length_app, IH. done.
Qed.

Lemma filter_bind {A B} (P : B → Prop) `{∀ y, Decision (P y)} (f : A → list B) (l : list A) :
  filter P (l ≫= f) = l ≫= λ x, filter P (f x).
Proof.
  induction l as [|x l IH]; [done |].
  rewrite !bind_cons, filter_app, IH. done.
Qed.

Lemma length_keys {V} (d : gmap Atom V) : length (keys d) = size d.
Proof. unfold keys. rewrite <- size_dom. done. Qed.

Lemma NoDup_keys {V} (d : gmap Atom V) : NoDup (keys d).
Proof. apply NoDup_elements. Qed.

Lemma elem_of_bond_ends (g : BondGraph) (a b : Atom) :
  (a, b) ∈ bond_ends g ↔ is_Some (order g a b).
Proof.
  unfold bond_ends. rewrite list_elem_of_bind. split.
  - intros (atom & Hin & [adj Hadj]%elem_of_keys). rewrite Hadj in Hin. simpl in Hin.
    apply list_elem_of_bind in Hin as (nbr & Hpair%list_elem_of_singleton & [k Hk]%elem_of_keys).
    simplify_eq. exists k. apply order_Some. eauto.
  - intros [k (adj & Hadj & Hk)%order_Some]. exists a.
    split; [| apply elem_of_keys; eauto].
    rewrite Hadj. simpl. apply list_elem_of_bind. exists b.
    split; [by apply list_elem_of_singleton | apply elem_of_keys; eauto].
Qed.

Lemma NoDup_bond_ends (g : BondGraph) : NoDup (bond_ends g).
Proof.
  unfold bond_ends. apply NoDup_bind; [| | apply NoDup_keys].
  - intros x1 x2 [a b] _ _ Hin1 Hin2.
    apply list_elem_of_bind in Hin1 as (? & ?%list_elem_of_singleton & _).
    apply list_elem_of_bind in Hin2 as (? & ?%list_elem_of_singleton & _).
    congruence.
  - intros x _. apply NoDup_bind; [| | apply NoDup_keys].
    + intros y1 y2 [a b] _ _ ?%list_elem_of_singleton ?%list_elem_of_singleton. congruence.
    + intros y _. apply NoDup_singleton.
Qed.

Lemma length_bond_ends (g : BondGraph) : length (bond_ends g) = adjacency_sizes g.
Proof.
  unfold bond_ends, adjacency_sizes. rewrite length_bind.
  rewrite keys_Permutation.
  apply sum_list_with_fst, Forall_forall.
  intros [a adj] Hentry%elem_of_map_to_list. simpl. rewrite Hentry. simpl.
  rewrite length_bind, <- length_keys.
  induction (keys adj) as [|x l IH]; [done | simpl in *; lia].
Qed.

Section BondsFacts.
Context {coord Value : Type}.
Variable index : Atom → Z.
Implicit Types (m : Molecule coord Value).

Lemma bonds_filter m :
  bonds index m = filter (λ p, index p.1 ≤ index p.2) (bond_ends (bond_graph m)).
Proof.
  unfold bonds, bond_ends. rewrite filter_bind.
  apply list_bind_ext; [| done]. intros atom.
  rewrite filter_bind. apply list_bind_ext; [| done]. intros nbr.
  rewrite filter_cons. simpl. case_decide; case_decide; done || lia.
Qed.

Lemma elem_of_bonds m a b :
  (a, b) ∈ bonds index m ↔ is_Some (order (bond_graph m) a b) ∧ index a ≤ index b.
Proof.
  rewrite bonds_filter, list_elem_of_filter, elem_of_bond_ends. simpl. tauto.
Qed.

(** X7: the [bonds] iterator yields no pair twice, and it yields a pair
    exactly when the first atom lists the second and its index is not the
    greater one.  In a symmetric graph whose atoms have different indices,
    it therefore yields each bond between two atoms once, in one direction
    only. *)
Theorem bonds_each_once m :
  NoDup (bonds index m)
  ∧ (∀ a b, (a, b) ∈ bonds index m
            ↔ is_Some (order (bond_graph m) a b) ∧ index a ≤ index b)
  ∧ ((∀ a b k, order (bond_graph m) a b = Some k → order (bond_graph m) b a = Some k) →
     (∀ a b, is_Some (bond_graph m !! a) → is_Some (bond_graph m !! b) →
             index a = index b → a = b) →
     ∀ a b, a ≠ b → is_Some (order (bond_graph m) a b) →
       ((a, b) ∈ bonds index m ∧ (b, a) ∉ bonds index m)
       ∨ ((b, a) ∈ bonds index m ∧ (a, b) ∉ bonds index m)).
Proof.
  split; [| split].
  - rewrite bonds_filter. apply NoDup_filter, NoDup_bond_ends.
  - apply elem_of_bonds.
  - intros Hsym Hinj a b Hne [k Hab].
    pose proof (Hsym _ _ _ Hab) as Hba.
    assert (index a ≠ index b).
    { intros Heq. apply Hne, Hinj; [| | done].
      - apply order_Some in Hab as (? & ? & _). eauto.
      - apply order_Some in Hba as (? & ? & _). eauto. }
    rewrite !elem_of_bonds.
    destruct (decide (index a ≤ index b)).
    + left. split; [eauto |]. intros [_ ?]. lia.
    + right. split; [split; [eauto | lia] |]. intros [_ ?]. lia.
Qed.

(** X8: in a symmetric graph in which no atom is bonded to itself and the
    atoms have different indices, the [bonds] iterator yields half as many
    pairs as the adjacency maps have entries; after a rebuild of the
    topology that is [num_bonds] of them. *)
Theorem bonds_count m :
  (∀ a b k, order (bond_graph m) a b = Some k → order (bond_graph m) b a = Some k) →
  (∀ a, order (bond_graph m) a a = None) →
  (∀ a b, is_Some (bond_graph m !! a) → is_Some (bond_graph m !! b) →
          index a = index b → a = b) →
  (2 * length (bonds index m) = adjacency_sizes (bond_graph m))%nat
  ∧ (2 * num_bonds m = Z.of_nat (adjacency_sizes (bond_graph m)) →
     Z.of_nat (length (bonds index m)) = num_bonds m).
Proof.
  intros Hsym Hloop Hinj.
  assert (Htwice : (2 * length (bonds index m) = adjacency_sizes (bond_graph m))%nat);
    [| split; [done | lia]].
  rewrite <- length_bond_ends.
  pose proof (filter_app_complement (λ p : Atom * Atom, index p.1 ≤ index p.2)
                (bond_ends (bond_graph m))) as Hsplit.
  apply Permutation_length in Hsplit. rewrite length_app in Hsplit.
  rewrite <- bonds_filter in Hsplit.
  enough (Hswap : filter (λ p : Atom * Atom, ¬ index p.1 ≤ index p.2)
                    (bond_ends (bond_graph m))
                  ≡ₚ (λ p, (p.2, p.1)) <$> bonds index m).
  { apply Permutation_length in Hswap. rewrite length_fmap in Hswap. lia. }
  apply NoDup_Permutation.
  - apply NoDup_filter, NoDup_bond_ends.
  - apply NoDup_fmap_2_strong.
    + intros [x1 y1] [x2 y2] _ _ Heq. simpl in Heq. congruence.
    + rewrite bonds_filter. apply NoDup_filter, NoDup_bond_ends.
  - intros [x y]. rewrite list_elem_of_filter, elem_of_bond_ends, list_elem_of_fmap. simpl.
    split.
    + intros [Hidx [k Hxy]]. exists (y, x). split; [done |].
      apply elem_of_bonds. split; [eauto | lia].
    + intros ([y' x'] & [= -> ->] & [[k Hyx] Hidx]%elem_of_bonds).
      split; [| eauto].
      assert (index y' ≠ index x'); [| lia].
      intros Heq. assert (y' = x') as ->.
      { apply Hinj; [| | done].
        - apply order_Some in Hyx as (? & ? & _). eauto.
        - apply Hsym, order_Some in Hyx as (? & ? & _). eauto. }
      by rewrite Hloop in Hyx.
Qed.
End BondsFacts.

(** ** Setting and reading the property snapshot *)

Section SnapshotFacts.
Context {coord Value : Type} `{EqDecision coord}.
Implicit Types (m : Molecule coord Value) (p val : MolecularProperties coord Value).

(** X9: the [properties] setter accepts a snapshot exactly when its
    positions are the current positions.  The snapshot is then what the
    accessor returns, with its values, and it matches the geometry; once
    the positions change it matches no more, and the next read returns a
    snapshot of the new positions without any value. *)
Theorem properties_set_then_get m val :
  (succeeds (properties_setter m val) ↔ positions val = _positions m)
  ∧ ∀ m', properties_setter m val = Ok m' →
      properties m' = (val, m')
      ∧ geometry_matches val m' = true
      ∧ ∀ xs, xs ≠ _positions m' →
          geometry_matches val (set_positions m' xs) = false
          ∧ (properties (set_positions m' xs)).1 = mkProps xs ∅.
Proof.
  unfold properties_setter, geometry_matches. split.
  - case_bool_decide; split; try done.
    + by eexists.
    + by intros [? ?].
  - intros m' Hset. case_bool_decide as Hgeo; [| discriminate]. simplify_eq.
    unfold properties, geometry_matches. simpl.
    rewrite bool_decide_eq_true_2 by done. split; [done |]. split; [done |].
    intros xs Hxs. rewrite bool_decide_eq_false_2 by congruence. done.
Qed.
End SnapshotFacts.

(** ** Constraints and the degrees of freedom *)

Section ConstraintDofFacts.
Context {coord Value : Type}.
Variable new_constraint : ConstraintKind → list Atom → option Value → result (Constraint Value).
Implicit Types (m : Molecule coord Value).

Lemma dynamic_dof_override m d : _dof m = Some d → dynamic_dof m = d.
Proof. unfold dynamic_dof. by intros ->. Qed.

Lemma reset_methods_dof m :
  _dof (_reset_methods m) = _dof m ∧ dynamic_dof (_reset_methods m) = dynamic_dof m.
Proof.
  unfold _reset_methods, dynamic_dof, num_atoms.
  destruct (energy_model m) as [em|] eqn:Hem; destruct (integrator m) as [i|] eqn:Hi;
    simpl; rewrite ?Hi; simpl; rewrite ?Hi; simpl; done.
Qed.

Lemma with_constraints_dof m cs :
  _dof m = None →
  dynamic_dof (with_constraints m cs)
  = dynamic_dof m + foldr Z.add 0 (dof <$> constraints m) - foldr Z.add 0 (dof <$> cs).
Proof.
  intros Hdof.
  rewrite (dynamic_dof_closed_form (with_constraints m cs)) by done.
  rewrite (dynamic_dof_closed_form m) by done. simpl. unfold num_atoms. simpl. lia.
Qed.

Lemma append_constraint_dof m c m' :
  append_constraint m c = Ok (c, m') →
  (_dof m = None → dynamic_dof m' = dynamic_dof m - dof c)
  ∧ (∀ d, _dof m = Some d → dynamic_dof m' = d).
Proof.
  unfold append_constraint. intros Hrun.
  destruct (last _) as [c'|]; [| discriminate]. simplify_eq.
  destruct (reset_methods_dof (with_constraints m (constraints m ++ [c]))) as [Hdof ->].
  split.
  - intros Hnone. rewrite with_constraints_dof by done.
    rewrite fmap_app, foldr_app. simpl.
    assert (Hsum : ∀ (l : list Z) z, foldr Z.add z l = foldr Z.add 0 l + z).
    { induction l as [|x l IH]; intros z; simpl; [lia | rewrite IH; lia]. }
    rewrite (Hsum _ (dof c + 0)). lia.
  - intros d Hd. by apply dynamic_dof_override.
Qed.

(** X10: a constraint added by any of the four operations takes its own
    count off [dynamic_dof] when that is computed, and nothing else
    changes in the count; an explicitly set [dynamic_dof] stays as it
    is. *)
Theorem constrain_lowers_dynamic_dof m m' c a1 a2 a3 a4 value :
  constrain_atom new_constraint m a1 value = Ok (c, m')
  ∨ constrain_distance new_constraint m a1 a2 value = Ok (c, m')
  ∨ constrain_angle new_constraint m a1 a2 a3 value = Ok (c, m')
  ∨ constrain_dihedral new_constraint m a1 a2 a3 a4 value = Ok (c, m') →
  (_dof m = None → dynamic_dof m' = dynamic_dof m - dof c)
  ∧ (∀ d, _dof m = Some d → dynamic_dof m' = d).
Proof.
  assert (Hany : ∀ kind args,
    new_constraint kind args value ≫= append_constraint m = Ok (c, m') →
    append_constraint m c = Ok (c, m')).
  { intros kind args (c0 & _ & Happ)%bind_Ok.
    pose proof Happ as Happ'. unfold append_constraint in Happ'. simpl in Happ'.
    destruct (reset_methods_flags (with_constraints m (constraints m ++ [c0])))
      as (_ & _ & Hcs & _).
    rewrite Hcs in Happ'. simpl in Happ'. rewrite last_snoc in Happ'. by simplify_eq. }
  intros [H | [H | [H | H]]]; apply Hany in H; by apply append_constraint_dof.
Qed.

(** X11: [clear_constraints] leaves no constraint and marks the bound
    energy model and integrator unprepared; the options of the integrator
    stay, so that the computed [dynamic_dof] rises by just the counts of
    the constraints that went; clearing twice is clearing once. *)
Theorem clear_constraints_clears m :
  constraints (clear_constraints m) = []
  ∧ (em_prepped <$> energy_model (clear_constraints m)) = ((λ _, false) <$> energy_model m)
  ∧ (int_prepped <$> integrator (clear_constraints m)) = ((λ _, false) <$> integrator m)
  ∧ (int_constraints <$> integrator (clear_constraints m)) = (int_constraints <$> integrator m)
  ∧ (_dof m = None →
     dynamic_dof (clear_constraints m)
     = dynamic_dof m + foldr Z.add 0 (dof <$> constraints m))
  ∧ clear_constraints (clear_constraints m) = clear_constraints m.
Proof.
  unfold clear_constraints.
  destruct (reset_methods_flags (with_constraints m [])) as (Hint & Hem & Hcs & _).
  destruct (reset_methods_dof (with_constraints m [])) as [_ Hdof].
  rewrite Hcs, Hint, Hem, Hdof. simpl.
  split; [done |]. split; [done |]. split; [done |]. split; [| split].
  - by destruct m as [? ? ? ? ? ? ? ? ? ? [em|] [i|] ?].
  - intros Hnone. rewrite with_constraints_dof by done. simpl. lia.
  - by destruct m as [? ? ? ? ? ? ? ? ? ? [em|] [i|] ?].
Qed.
End ConstraintDofFacts.

(** ** Electrons and frontier orbitals *)

Section ElectronFacts.
Context {coord Value : Type}.
Implicit Types (m : Molecule coord Value).

Lemma fold_left_add (l : list Z) (z : Z) : fold_left Z.add l z = z + foldr Z.add 0 l.
Proof. revert z. induction l as [|x l IH]; intros z; simpl; [lia | rewrite IH; lia]. Qed.

(** X12: [lumo] is the orbital after [homo].  With an even number of
    electrons the orbitals up to [homo] hold them all in pairs; with an odd
    number one electron is left over.  The number of electrons is the sum
    of the atomic numbers less the charge, whatever the order of the
    atoms. *)
Theorem homo_lumo m :
  lumo m = homo m + 1
  ∧ (num_electrons m `mod` 2 = 0 → 2 * (homo m + 1) = num_electrons m)
  ∧ (num_electrons m `mod` 2 = 1 → 2 * (homo m + 1) + 1 = num_electrons m)
  ∧ num_electrons m = foldr Z.add 0 (atnum <$> atoms m) - charge m
  ∧ ∀ m2, atoms m2 ≡ₚ atoms m → charge m2 = charge m → num_electrons m2 = num_electrons m.
Proof.
  unfold lumo, homo, num_electrons. rewrite fold_left_add.
  split; [lia |]. split; [| split; [| split; [lia |]]].
  - intros Heven. pose proof (Z.div_mod (0 + foldr Z.add 0 (atnum <$> atoms m) - charge m) 2).
    lia.
  - intros Hodd. pose proof (Z.div_mod (0 + foldr Z.add 0 (atnum <$> atoms m) - charge m) 2).
    lia.
  - intros m2 Hperm Hcharge. rewrite fold_left_add, Hcharge. do 2 f_equal.
    apply (foldr_permutation (=) Z.add 0); [intros; lia |].
    by apply fmap_Permutation.
Qed.
End ElectronFacts.

(** ** Calculating a property *)

Section CalcPropertyFacts.
Context {coord Value : Type} `{EqDecision coord}.
Variable job_getitem : CalculateReturn coord Value → string → result (PropValue coord Value).
Implicit Types (m : Molecule coord Value).

End CalcPropertyFacts.

(** ** Stoichiometry *)

Lemma count_symbols_from (symbols : list string) (counts : gmap string nat) (s : string) :
  fold_left (λ counts symbol, <[symbol := (default 0 (counts !! symbol) + 1)%nat]> counts)
    symbols counts !! s
  = match counts !! s with
    | Some k => Some (k + occurrences s symbols)%nat
    | None => if decide (occurrences s symbols = 0%nat) then None
              else Some (occurrences s symbols)
    end.
Proof.
  unfold occurrences. revert counts.
  induction symbols as [|x symbols IH]; intros counts; simpl.
  - destruct (counts !! s); [f_equal; lia | done].
  - rewrite IH, filter_cons. destruct (decide (x = s)) as [-> | Hne].
    + rewrite lookup_insert_eq. simpl.
      destruct (counts !! s); simpl; f_equal; lia.
    + rewrite lookup_insert_ne by done. done.
Qed.

Lemma count_symbols_lookup (symbols : list string) (s : string) :
  count_symbols symbols !! s
  = if decide (occurrences s symbols = 0%nat) then None else Some (occurrences s symbols).
Proof. unfold count_symbols. by rewrite count_symbols_from, lookup_empty. Qed.

Lemma occurrences_fmap {A} (f : A → string) (s : string) (l : list A) :
  occurrences s (f <$> l) = length (filter (λ a, f a = s) l).
Proof.
  unfold occurrences. induction l as [|a l IH]; [done |].
  rewrite fmap_cons, !filter_cons. destruct (decide (f a = s)); simpl; by rewrite IH.
Qed.

Lemma occurrences_zero {A} (f : A → string) (s : string) (l : list A) :
  occurrences s (f <$> l) ≠ 0%nat ↔ ∃ a, a ∈ l ∧ f a = s.
Proof.
  rewrite occurrences_fmap. split.
  - intros Hne. destruct (filter (λ a, f a = s) l) as [|a rest] eqn:Hf; [done |].
    assert (a ∈ filter (λ a, f a = s) l) as [? ?]%list_elem_of_filter
      by (rewrite Hf; left). eauto.
  - intros (a & Ha & Hs) Hzero. apply length_zero_iff_nil in Hzero.
    assert (a ∈ filter (λ a, f a = s) l) as Hin by (by apply list_elem_of_filter).
    rewrite Hzero in Hin. by apply elem_of_nil in Hin.
Qed.

Section StoichiometryFacts.
Context {coord Value : Type}.
Variable symbol : Atom → string.
Implicit Types (m : Molecule coord Value).

(** X14: [get_stoichiometry] writes, for the symbols of the atoms taken
    once each in ascending order, the symbol followed by the number of
    atoms that have it (inside [<sub>] tags for html), and nothing else. *)
Theorem get_stoichiometry_counts m html (elems : list string) :
  Sorted String.le elems → NoDup elems →
  (∀ s, s ∈ elems ↔ ∃ a, a ∈ atoms m ∧ symbol a = s) →
  get_stoichiometry symbol m html
  = String.concat ""
      ((λ k, if html
             then k +:+ "<sub>"
                  +:+ pretty (length (filter (λ a, symbol a = k) (atoms m))) +:+ "</sub>"
             else k +:+ pretty (length (filter (λ a, symbol a = k) (atoms m))))
         <$> elems).
Proof.
  intros Hsorted Hnd Helems. unfold get_stoichiometry.
  assert (Hsame : merge_sort String.le (elements (dom (count_symbols (symbol <$> atoms m))))
                  = elems).
  { apply (Sorted_unique String.le).
    - apply Sorted_merge_sort, _.
    - done.
    - rewrite merge_sort_Permutation. apply NoDup_Permutation.
      + apply NoDup_elements.
      + done.
      + intros s. rewrite elem_of_elements, elem_of_dom, count_symbols_lookup, Helems.
        rewrite <- occurrences_zero. case_decide; split; try done.
        all: try (by intros [? ?]). all: eauto. }
  rewrite Hsame. f_equal. apply list_fmap_ext. intros i k Hk.
  rewrite count_symbols_lookup, <- occurrences_fmap.
  assert (occurrences k (symbol <$> atoms m) ≠ 0%nat).
  { apply occurrences_zero, Helems. by eapply list_elem_of_lookup_2. }
  rewrite decide_False by done. done.
Qed.

(** X15: the stoichiometry does not depend on the order of the atoms. *)
Theorem get_stoichiometry_order m1 m2 html :
  atoms m1 ≡ₚ atoms m2 →
  get_stoichiometry symbol m1 html = get_stoichiometry symbol m2 html.
Proof.
  intros Hperm. unfold get_stoichiometry.
  assert (count_symbols (symbol <$> atoms m1) = count_symbols (symbol <$> atoms m2)) as ->;
    [| done].
  apply map_eq. intros s. rewrite !count_symbols_lookup, !occurrences_fmap.
  assert (length (filter (λ a, symbol a = s) (atoms m1))
          = length (filter (λ a, symbol a = s) (atoms m2))) as ->; [| done].
  apply Permutation_length. by apply (filter_Permutation (λ a, symbol a = s)).
Qed.
End StoichiometryFacts.

(** ** A molecule as its constructor leaves it *)

Section InitFacts.
Context {coord Value : Type} `{EqDecision coord}.
Variable bond_graph_of : Atom → option Adjacency.
Variable atom_positions : list Atom → list coord.
Variable assign_residue_indices : list Atom → list Residue → result (list Residue * bool).

Local Abbreviation init :=
  (Molecule_init (Value := Value) bond_graph_of atom_positions assign_residue_indices).

End InitFacts.

(** ** The residue table *)

Lemma count_residues_from (l : list Residue) (counts : gmap string nat) (unk : list string) :
  fold_left count_residue l (counts, unk)
  = (fold_left (λ counts symbol, <[symbol := (default 0 (counts !! symbol) + 1)%nat]> counts)
       (res_type <$> l) counts,
     unk ++ (res_name <$> filter (λ r, res_type r = "unknown") l)).
Proof.
  revert counts unk. induction l as [|r l IH]; intros counts unk; simpl.
  - by rewrite app_nil_r.
  - rewrite IH, filter_cons. f_equal.
    destruct (decide (res_type r = "unknown")); [| done].
    by rewrite fmap_cons, <- app_assoc.
Qed.

(** X23: in the line of the residue table for a chain, the cell ['chain']
    holds the name of the chain, and the cell of every other category but
    ['unknown'] the number of residues of that type, if there is any.  The
    cell ['unknown'] holds the names of the residues of unknown type,
    separated by commas, when there are one to four of them, and their
    number when there are more. *)
Theorem residue_table_line_cells (chain_name : string) (chain_residues : list Residue) :
  let line := residue_table_line chain_name chain_residues in
  let number cat := length (filter (λ r, res_type r = cat) chain_residues) in
  line !! "chain" = Some (TextCell ("<pre><b>" +:+ chain_name +:+ "</b></pre>"))
  ∧ (∀ cat, cat ≠ "chain" → cat ≠ "unknown" →
       line !! cat = if decide (number cat = 0%nat) then None
                     else Some (CountCell (number cat)))
  ∧ line !! "unknown"
    = if decide (number "unknown" = 0%nat) then None
      else if decide (number "unknown" ≤ 4)%nat
           then Some (TextCell (String.concat ","
                  (res_name <$> filter (λ r, res_type r = "unknown") chain_residues)))
           else Some (CountCell (number "unknown")).
Proof.
  intros line number. subst line. unfold residue_table_line.
  rewrite count_residues_from. simpl.
  assert (Hcount : ∀ cat,
    (CountCell <$> fold_left
       (λ counts symbol, <[symbol := (default 0 (counts !! symbol) + 1)%nat]> counts)
       (res_type <$> chain_residues) (∅ : gmap string nat)) !! cat
    = if decide (number cat = 0%nat) then None else Some (CountCell (number cat))).
  { intros cat. rewrite lookup_fmap. fold (count_symbols (res_type <$> chain_residues)).
    rewrite count_symbols_lookup, occurrences_fmap. fold (number cat).
    by destruct (decide (number cat = 0%nat)). }
  assert (Hunk : length (res_name <$> filter (λ r, res_type r = "unknown") chain_residues)
                 = number "unknown") by (by rewrite length_fmap).
  rewrite Hunk.
  destruct (decide (0 < number "unknown" ≤ 4)%nat) as [Hfew | Hnot].
  - split; [by rewrite lookup_insert_ne, lookup_insert_eq |]. split.
    + intros cat Hchain Hunknown. by rewrite !lookup_insert_ne, Hcount.
    + rewrite lookup_insert_eq, decide_False, decide_True by lia. done.
  - split; [by rewrite lookup_insert_eq |]. split.
    + intros cat Hchain Hunknown. by rewrite lookup_insert_ne, Hcount.
    + rewrite lookup_insert_ne, Hcount by done.
      destruct (decide (number "unknown" = 0%nat)); [done |].
      rewrite decide_False by lia. done.
Qed.

Lemma residue_table_line_cells_witness :
  residue_table_line "A" [mkResidue "ALA1" "protein"; mkResidue "LIG7" "unknown";
                          mkResidue "GLY2" "protein"] !! "protein"
  = Some (CountCell 2)
  ∧ residue_table_line "A" [mkResidue "ALA1" "protein"; mkResidue "LIG7" "unknown";
                            mkResidue "GLY2" "protein"] !! "unknown"
    = Some (TextCell "LIG7").
Proof.
  destruct (residue_table_line_cells "A"
              [mkResidue "ALA1" "protein"; mkResidue "LIG7" "unknown";
               mkResidue "GLY2" "protein"]) as (_ & Hcat & Hunknown).
  split.
  - apply (Hcat "protein"); discriminate.
  - exact Hunknown.
Defined.

(** ** Sequences in lines of 80 *)

Lemma string_app_nil_r (s : string) : s +:+ "" = s.
Proof.
  induction s as [|c s IH]; [done |].
  change (String c (s +:+ "") = String c s). by rewrite IH.
Qed.

Lemma concat_empty_cons (x : string) (xs : list string) :
  String.concat "" (x :: xs) = x +:+ String.concat "" xs.
Proof. destruct xs; [by rewrite string_app_nil_r | done]. Qed.

Lemma length_substring (a m : nat) (s : string) :
  String.length (String.substring a m s) = (m `min` (String.length s - a))%nat.
Proof.
  revert a m. induction s as [|c s IH]; intros a m.
  - destruct a, m; simpl; lia.
  - destruct a as [|a]; [destruct m as [|m] |]; simpl; [done | |].
    + rewrite IH. lia.
    + by rewrite IH.
Qed.

Lemma substring_beyond (a m : nat) (s : string) :
  (String.length s ≤ a)%nat → String.substring a m s = "".
Proof.
  revert a. induction s as [|c s IH]; intros a Hlen.
  - by destruct a, m.
  - destruct a as [|a]; simpl in *; [lia |]. apply IH. lia.
Qed.

(** A string is its first [w] characters followed by the rest. *)
Lemma substring_split (w : nat) (s : string) :
  ∃ rest, s = String.substring 0 w s +:+ rest
          ∧ String.length rest = (String.length s - w)%nat
          ∧ ∀ b m, String.substring (w + b) m s = String.substring b m rest.
Proof.
  revert s. induction w as [|w IH]; intros s.
  - exists s. split; [by destruct s |]. split; [simpl; lia | done].
  - destruct s as [|c s].
    + exists "". split; [done |]. split; [done |]. intros b m. by destruct b, m.
    + destruct (IH s) as (rest & Hs & Hlen & Hsub). exists rest.
      split; [| split; [done |]].
      * change (String c s = String c (String.substring 0 w s +:+ rest)). by rewrite <- Hs.
      * intros b m. apply Hsub.
Qed.

Lemma concat_lines (w n : nat) (s : string) :
  (String.length s ≤ w * n)%nat →
  String.concat "" ((λ k, String.substring (w * k) w s) <$> List.seq 0 n) = s.
Proof.
  revert s. induction n as [|n IH]; intros s Hlen.
  - destruct s; simpl in *; [done | lia].
  - rewrite <- cons_seq, <- fmap_S_seq, fmap_cons, <- list_fmap_compose, concat_empty_cons.
    rewrite Nat.mul_0_r.
    destruct (substring_split w s) as (rest & Hs & Hrest & Hsub).
    rewrite (list_fmap_ext _ (λ k, String.substring (w * k) w rest) (List.seq 0 n)).
    + rewrite IH by lia. by rewrite <- Hs.
    + intros i k _. simpl. rewrite <- Hsub. f_equal. lia.
Qed.

(** X21: the lines into which [biomol_summary_markdown] cuts a sequence
    give the sequence back when put together; there are as many as 80
    goes into the length, rounded up; each has 80 characters, but for the
    last, which has what is left, at least one. *)
Theorem sequence_lines_round_trip (seq : string) :
  String.concat "" (sequence_lines seq) = seq
  ∧ length (sequence_lines seq) = ((String.length seq + 79) `div` 80)%nat
  ∧ ∀ i line, sequence_lines seq !! i = Some line →
      String.length line = (80 `min` (String.length seq - 80 * i))%nat
      ∧ (1 ≤ String.length line ≤ 80)%nat
      ∧ ((S i < length (sequence_lines seq))%nat → String.length line = 80%nat).
Proof.
  unfold sequence_lines.
  pose proof (Nat.div_mod_eq (String.length seq + 79) 80) as Hdiv.
  pose proof (Nat.mod_upper_bound (String.length seq + 79) 80) as Hmod.
  split; [apply concat_lines; lia |].
  split; [by rewrite length_fmap, length_seq |].
  intros i line Hline. rewrite length_fmap, length_seq.
  apply list_lookup_fmap_Some in Hline as (k & -> & Hk).
  apply lookup_seq in Hk as [-> Hi]. rewrite Nat.add_0_l.
  rewrite length_substring. lia.
Qed.

(** ** The cache in [calculate] *)

Section CacheFacts.
Context {coord Value : Type} `{EqDecision coord}.
Implicit Types (m : Molecule coord Value).

Lemma dict_update_self (p : MolecularProperties coord Value) :
  dict_update p (as_dict p) = p.
Proof.
  destruct p as [xs vs]. unfold dict_update, as_dict. simpl.
  f_equal. apply map_eq. intros k. rewrite lookup_union. by destruct (vs !! k).
Qed.

(** X22: without an energy model [calculate] raises [AttributeError].
    With one, when every property requested and every default property of
    the model is in the snapshot read at the current geometry, [calculate]
    with [use_cache] returns that snapshot (as a finished job if it is not
    to wait) and does not run the model; the molecule is as the read of
    the snapshot leaves it. *)
Theorem calculate_cached m requests wait :
  (energy_model m = None → ∀ use_cache, calculate m requests wait use_cache = Raise AttributeError)
  ∧ ∀ em, energy_model m = Some em →
      (∀ name, name ∈ default [] requests ++ DEFAULT_PROPERTIES em →
               props_contains (properties m).1 name = true) →
      calculate m requests wait true
      = Ok (if wait then ReturnProperties (properties m).1
            else ReturnDummyJob (as_dict (properties m).1),
            (properties m).2).
Proof.
  split.
  - intros Hnone use_cache. unfold calculate. by rewrite Hnone.
  - intros em Hem Hcached. unfold calculate. rewrite Hem. simpl.
    destruct (properties_read m) as (Hpos & Hstored & Hcur & Hagain).
    destruct (properties m) as [p m1] eqn:Hread. simpl in *.
    assert (Hnothing : list_to_set (default [] requests ++ DEFAULT_PROPERTIES em)
                         ∖ props_keys p = (∅ : gset string)).
    { apply set_eq. intros name. rewrite elem_of_difference, elem_of_list_to_set.
      split; [| by intros ?%elem_of_empty].
      intros [Hin Hout]. exfalso. apply Hout.
      specialize (Hcached name Hin). unfold props_contains in Hcached.
      by apply bool_decide_eq_true in Hcached. }
    rewrite Hnothing, size_empty. simpl. rewrite Hagain. simpl.
    destruct wait; [| done].
    rewrite Hagain. simpl. rewrite dict_update_self.
    assert (Hsame : with_properties m1 p = m1).
    { destruct m1. simpl in Hstored. by subst p. }
    rewrite Hsame, Hagain. done.
Qed.
End CacheFacts.

(** * The PySCF model, verified *)

(** ** Paths of lazily imported classes *)

Lemma split_cons (sep : ascii) (s : string) :
  ∃ field fields, PySCF.split sep s = field :: fields.
Proof.
  destruct s as [|c rest]; simpl; [eauto |].
  case_decide; [eauto |]. destruct (PySCF.split sep rest); eauto.
Qed.

Lemma concat_split (sep : ascii) (s : string) :
  String.concat (String sep "") (PySCF.split sep s) = s.
Proof.
  induction s as [|c rest IH]; [done |].
  change (PySCF.split sep (String c rest))
    with (if decide (c = sep) then "" :: PySCF.split sep rest
          else match PySCF.split sep rest with
               | [] => [String c ""]
               | field :: fields => String c field :: fields
               end).
  destruct (split_cons sep rest) as (field & fields & Hsplit).
  rewrite Hsplit in IH |- *. rewrite <- IH. case_decide as Hc.
  - subst c. reflexivity.
  - destruct fields; reflexivity.
Qed.

Lemma split_no_sep (sep : ascii) (s field : string) :
  field ∈ PySCF.split sep s → sep ∉ String.list_ascii_of_string field.
Proof.
  revert field. induction s as [|c rest IH]; intros field; simpl.
  - intros ->%list_elem_of_singleton. apply not_elem_of_nil.
  - case_decide as Hc.
    + intros [-> | Hin]%elem_of_cons; [apply not_elem_of_nil | by apply IH].
    + destruct (PySCF.split sep rest) as [|first fields].
      * intros ->%list_elem_of_singleton. simpl.
        intros [? | []%elem_of_nil]%elem_of_cons. congruence.
      * intros [-> | Hin]%elem_of_cons.
        -- simpl. intros [? | Hin]%elem_of_cons; [congruence |].
           by apply (IH first); [left |].
        -- apply IH. by right.
Qed.

Lemma string_app_assoc (s1 s2 s3 : string) : (s1 +:+ s2) +:+ s3 = s1 +:+ (s2 +:+ s3).
Proof.
  induction s1 as [|c s1 IH]; [done |].
  change (String c ((s1 +:+ s2) +:+ s3) = String c (s1 +:+ s2 +:+ s3)).
  by rewrite IH.
Qed.

Lemma concat_snoc (sep : string) (l : list string) (x : string) :
  l ≠ [] → String.concat sep (l ++ [x]) = String.concat sep l +:+ sep +:+ x.
Proof.
  induction l as [|y l IH]; [done |]. intros _.
  destruct l as [|z l]; [done |].
  change (String.concat sep ((y :: z :: l) ++ [x]))
    with (y +:+ sep +:+ String.concat sep ((z :: l) ++ [x])).
  rewrite IH by done.
  change (String.concat sep (y :: z :: l)) with (y +:+ sep +:+ String.concat sep (z :: l)).
  by rewrite !string_app_assoc.
Qed.

Section LazyClassMapFacts.
Context {PyModule Class : Type}.
Variable import_module : string → PySCF.outcome PyModule.
Variable getattr : PyModule → string → PySCF.outcome Class.

(** X17: a [LazyClassMap] raises [KeyError] for a key it does not have,
    and for every integer.  For a key it has, it imports the module named
    by all of the path before the last dot and takes from it the attribute
    named by what follows that dot; of a path without a dot the module
    name is empty and the attribute is the whole path. *)
Theorem LazyClassMap_getitem_path (mapping : gmap string string) (key : string) :
  (∀ i : nat, PySCF.LazyClassMap_getitem import_module getattr mapping (inl i)
              = PySCF.Raises (PySCF.Builtin KeyError))
  ∧ (mapping !! key = None →
     PySCF.LazyClassMap_getitem import_module getattr mapping (inr key)
     = PySCF.Raises (PySCF.Builtin KeyError))
  ∧ ∀ path, mapping !! key = Some path →
      ∃ modname cls,
        PySCF.LazyClassMap_getitem import_module getattr mapping (inr key)
        = (import_module modname ≫= λ m, getattr m cls)
        ∧ ("."%char ∉ String.list_ascii_of_string cls)
        ∧ (path = modname +:+ "." +:+ cls ∨ (modname = "" ∧ cls = path)).
Proof.
  split; [done |]. split; [by intros Hnone; simpl; rewrite Hnone |].
  intros path Hpath. simpl. rewrite Hpath.
  exists (String.concat "." (removelast (PySCF.split "." path))),
         (List.last (PySCF.split "." path) "").
  split; [done |].
  pose proof (concat_split "." path) as Hjoin.
  destruct (split_cons "." path) as (field & fields & Hsplit).
  assert (Hne : PySCF.split "." path ≠ []) by (by rewrite Hsplit).
  pose proof (app_removelast_last "" Hne) as Hparts.
  split.
  - apply (split_no_sep "." path).
    assert (Hin : List.last (PySCF.split "." path) ""
                  ∈ removelast (PySCF.split "." path) ++ [List.last (PySCF.split "." path) ""])
      by (apply elem_of_app; right; apply list_elem_of_here).
    by rewrite <- Hparts in Hin.
  - destruct (removelast (PySCF.split "." path)) as [|m ms].
    + right. split; [done |]. rewrite Hparts in Hjoin. done.
    + left. rewrite Hparts in Hjoin. rewrite concat_snoc in Hjoin by done. done.
Qed.
End LazyClassMapFacts.

(** ** Forces *)

Section ForcesFacts.
Context {PyModule Class R : Type}.
Variable import_module : string → PySCF.outcome PyModule.
Variable getattr : PyModule → string → PySCF.outcome Class.
Variable item_is : string → Class → bool.

(** X18: [PySCFPotential.calculate] raises [KeyError] whenever forces are
    among the requests, whatever the theory: the test of the theory
    against [FORCE_CALCULATORS] reads the map at the integer 0.  Nothing of
    the calculation is then run, and the [ValueError] for a theory without
    forces is never raised.  Without forces among the requests the
    calculation runs with no force calculator. *)
Theorem calculate_forces_KeyError (theory : string) (requests : gset string)
    (rest : option Class → PySCF.outcome R) (fuel : nat) :
  ("forces" ∈ requests →
   PySCF.calculate import_module getattr item_is theory requests rest (S fuel)
   = Some (PySCF.Raises (PySCF.Builtin KeyError)))
  ∧ ("forces" ∉ requests →
     PySCF.calculate import_module getattr item_is theory requests rest fuel
     = Some (rest None)).
Proof.
  unfold PySCF.calculate. split; intros Hforces.
  - by rewrite bool_decide_eq_true_2.
  - by rewrite bool_decide_eq_false_2.
Qed.
End ForcesFacts.

(** ** The convergence ladder *)

Section ConvergeFacts.
Context {S DM : Type}.
Variable kernel : PySCF.Method S → option DM → PySCF.Method S.
Variable make_rdm1 : PySCF.Method S → DM.


(** X20: with a kernel that leaves the settings of the method alone, the
    number of messages logged tells what [_converge] leaves behind.  None:
    the settings as they were.  One: only the initial guess replaced, by
    ['atom'] if a density matrix was given and by ['minao'] if not.  Two:
    guess ['minao'], a level shift of -0.5 and half the cycles.  Three:
    guess ['minao'], no level shift, and twice the half of the cycles,
    which for an odd number is one less than before. *)
Theorem converge_settings method dm0 :
  (∀ m d, PySCF.init_guess (kernel m d) = PySCF.init_guess m
          ∧ PySCF.level_shift (kernel m d) = PySCF.level_shift m
          ∧ PySCF.max_cycle (kernel m d) = PySCF.max_cycle m) →
  let final := (PySCF._converge kernel make_rdm1 method dm0).1.2 in
  let log := (PySCF._converge kernel make_rdm1 method dm0).2 in
  (length log ≤ 3)%nat
  ∧ (length log = 0%nat →
     PySCF.init_guess final = PySCF.init_guess method
     ∧ PySCF.level_shift final = PySCF.level_shift method
     ∧ PySCF.max_cycle final = PySCF.max_cycle method)
  ∧ (length log = 1%nat →
     PySCF.init_guess final = (if dm0 is Some _ then "atom" else "minao")
     ∧ PySCF.level_shift final = PySCF.level_shift method
     ∧ PySCF.max_cycle final = PySCF.max_cycle method)
  ∧ (length log = 2%nat →
     PySCF.init_guess final = "minao"
     ∧ PySCF.level_shift final = QArith_base.Qmake (-1) 2
     ∧ PySCF.max_cycle final = PySCF.max_cycle method `div` 2)
  ∧ (length log = 3%nat →
     PySCF.init_guess final = "minao"
     ∧ PySCF.level_shift final = QArith_base.Qmake 0 1
     ∧ PySCF.max_cycle final = PySCF.max_cycle method - PySCF.max_cycle method `mod` 2).
Proof.
  intros Hkeeps.
  assert (Hg : ∀ m d, PySCF.init_guess (kernel m d) = PySCF.init_guess m)
    by (intros; apply Hkeeps).
  assert (Hl : ∀ m d, PySCF.level_shift (kernel m d) = PySCF.level_shift m)
    by (intros; apply Hkeeps).
  assert (Hc : ∀ m d, PySCF.max_cycle (kernel m d) = PySCF.max_cycle m)
    by (intros; apply Hkeeps).
  clear Hkeeps. unfold PySCF._converge. cbv zeta.
  repeat match goal with
         | |- context [if PySCF.converged ?m then _ else _] =>
             destruct (PySCF.converged m)
         end.
  all: simpl; split; [lia |].
  all: repeat split; try done.
  all: repeat (rewrite ?Hg, ?Hl, ?Hc; simpl).
  all: try done.
  all: pose proof (Z.div_mod (PySCF.max_cycle method) 2); lia.
Qed.
End ConvergeFacts.

(** ** The theorems at work on the examples *)

Lemma NoDup_water_atoms : NoDup [O_; H1_; H2_].
Proof. apply (bool_decide_unpack _). vm_compute. exact I. Qed.

Lemma elem_of_water_atoms (a : Atom) : a ∈ [O_; H1_; H2_] ↔ a = O_ ∨ a = H1_ ∨ a = H2_.
Proof. rewrite !elem_of_cons, elem_of_nil. tauto. Qed.

(** The bond graph of [water]: symmetric, without a bond of an atom to
    itself, its atoms told apart by [by_id]. *)
Lemma water_graph_tidy :
  (∀ a b k, order (bond_graph water) a b = Some k → order (bond_graph water) b a = Some k)
  ∧ (∀ a, order (bond_graph water) a a = None)
  ∧ (∀ a b, is_Some (bond_graph water !! a) → is_Some (bond_graph water !! b) →
            by_id a = by_id b → a = b).
Proof.
  assert (Hbuilt : _build_bonds water_bonds [O_; H1_; H2_] = Ok (bond_graph water))
    by (vm_compute; reflexivity).
  apply build_bonds_Ok in Hbuilt as (_ & Hkeys & _ & Hsym).
  assert (Hatoms : ∀ a, is_Some (bond_graph water !! a) → a = O_ ∨ a = H1_ ∨ a = H2_).
  { intros a Ha. by apply elem_of_water_atoms, Hkeys. }
  split; [| split].
  - intros a b k Hab. apply Hsym; [| done].
    apply Hkeys. apply order_Some in Hab as (adj & Hadj & _). eauto.
  - intros a. destruct (order (bond_graph water) a a) as [k|] eqn:Haa; [| done].
    exfalso. pose proof Haa as (adj & Hadj & _)%order_Some.
    destruct (Hatoms a) as [-> | [-> | ->]]; [eauto | | |]; vm_compute in Haa; discriminate.
  - intros a b Ha%Hatoms Hb%Hatoms Hid.
    destruct Ha as [-> | [-> | ->]], Hb as [-> | [-> | ->]];
      try reflexivity; vm_compute in Hid; discriminate.
Qed.

Lemma assign_atom_indices_slices_witness :
  NoDup [O_; H1_; H2_]
  ∧ atom_index (_assign_atom_indices example_mass keep_arrays [O_; H1_; H2_] blank_indexing)
      !! H2_ = Some 2%nat
  ∧ parent_slice (_assign_atom_indices example_mass keep_arrays [O_; H1_; H2_] blank_indexing)
      !! H2_ = Some (6%nat, 9%nat).
Proof.
  split; [exact NoDup_water_atoms |].
  exact (proj1 (proj2 (assign_atom_indices_slices example_mass keep_arrays [O_; H1_; H2_]
                         blank_indexing NoDup_water_atoms)) 2%nat H2_ eq_refl).
Defined.

Lemma assign_atom_indices_masses_witness :
  dim_masses (_assign_atom_indices example_mass keep_arrays [O_; H1_; H2_] blank_indexing)
  = [16; 16; 16; 1; 1; 1; 1; 1; 1].
Proof.
  exact (proj2 (assign_atom_indices_masses example_mass keep_arrays [O_; H1_; H2_]
                  blank_indexing) eq_refl).
Defined.

Lemma addatoms_extends_witness :
  addatoms hydroxyl_and_hydrogen coords_at_origin default_residue_only (λ _, false)
    hydroxyl [H2_] = Ok water_grown
  ∧ atoms water_grown = [O_; H1_; H2_]
  ∧ ndims water_grown = 9
  ∧ _properties water_grown = _properties hydroxyl.
Proof.
  assert (Hrun : addatoms hydroxyl_and_hydrogen coords_at_origin default_residue_only
                   (λ _, false) hydroxyl [H2_] = Ok water_grown)
    by (vm_compute; reflexivity).
  split; [exact Hrun |].
  destruct (addatoms_extends hydroxyl_and_hydrogen coords_at_origin default_residue_only
              (λ _, false) hydroxyl [H2_] water_grown Hrun)
    as (Hatoms & _ & _ & Hdims & _ & _ & _ & Hprops & _).
  split; [exact Hatoms |]. split; [exact Hdims | exact Hprops].
Defined.

Lemma addatoms_bond_graph_witness :
  order (bond_graph water_grown) H2_ O_ = Some 1
  ∧ order (bond_graph water_grown) O_ H2_ = Some 1.
Proof.
  assert (Hrun : addatoms hydroxyl_and_hydrogen coords_at_origin default_residue_only
                   (λ _, false) hydroxyl [H2_] = Ok water_grown)
    by (vm_compute; reflexivity).
  destruct (addatoms_bond_graph hydroxyl_and_hydrogen coords_at_origin default_residue_only
              (λ _, false) hydroxyl [H2_] water_grown Hrun)
    as (_ & _ & Hgiven & _).
  apply (Hgiven H2_ {[ O_ := 1 ]} O_ 1).
  - apply elem_of_water_atoms. auto.
  - reflexivity.
  - reflexivity.
Defined.

Lemma deletebond_removes_pair_witness :
  (deletebond h2 H1_ H2_).1 = Ok ()
  ∧ order (bond_graph (deletebond h2 H1_ H2_).2) H2_ H1_ = None
  ∧ num_bonds (deletebond h2 H1_ H2_).2 = 1.
Proof.
  destruct (deletebond_removes_pair h2 H1_ H2_) as [Hiff Hpost].
  assert (Hok : (deletebond h2 H1_ H2_).1 = Ok ()).
  { apply Hiff. split; [discriminate |]. split; vm_compute; eauto. }
  split; [exact Hok |].
  destruct (Hpost Hok) as (_ & Hgone & _ & _ & Hnum & _).
  split; [exact Hgone | exact Hnum].
Defined.

Lemma deletebond_raises_witness :
  (deletebond self_bonded O_ O_).1 = Raise KeyError
  ∧ order (bond_graph (deletebond self_bonded O_ O_).2) O_ O_ = None
  ∧ (deletebond lone_oxygen O_ H1_).2 = lone_oxygen.
Proof.
  split; [reflexivity |]. split.
  - destruct (deletebond_raises self_bonded O_ O_ KeyError eq_refl) as (_ & _ & Hpartial).
    apply Hpartial. vm_compute. eauto.
  - destruct (deletebond_raises lone_oxygen O_ H1_ KeyError eq_refl) as (_ & Hsame & _).
    apply Hsame. reflexivity.
Defined.

Lemma bonds_each_once_witness :
  (O_, H1_) ∈ bonds by_id water ∧ (H1_, O_) ∉ bonds by_id water.
Proof.
  destruct water_graph_tidy as (Hsym & _ & Hinj).
  destruct (bonds_each_once by_id water) as (_ & Hin & Honce).
  destruct (Honce Hsym Hinj O_ H1_) as [Hfirst | [Hsecond _]].
  - discriminate.
  - vm_compute. eauto.
  - exact Hfirst.
  - apply Hin in Hsecond as [_ Hle]. vm_compute in Hle. by destruct Hle.
Defined.

Lemma bonds_count_witness :
  Z.of_nat (length (bonds by_id water)) = num_bonds water.
Proof.
  destruct water_graph_tidy as (Hsym & Hself & Hinj).
  apply (proj2 (bonds_count by_id water Hsym Hself Hinj)). reflexivity.
Defined.

Lemma properties_set_then_get_witness :
  properties h2_calculated = (_properties h2_calculated, h2_calculated)
  ∧ (properties (set_positions h2_calculated [0; 0; 0; 0; 0; 80])).1
    = mkProps [0; 0; 0; 0; 0; 80] ∅.
Proof.
  assert (Hset : properties_setter h2_echo (_properties h2_calculated) = Ok h2_calculated)
    by (vm_compute; reflexivity).
  destruct (proj2 (properties_set_then_get h2_echo (_properties h2_calculated))
              h2_calculated Hset) as (Hread & _ & Hmoved).
  split; [exact Hread |].
  apply (Hmoved [0; 0; 0; 0; 0; 80]). discriminate.
Defined.

Lemma constrain_lowers_dynamic_dof_witness :
  dynamic_dof (with_constraints h2 [mkConstraint FixedPosition [H1_] 0 3]) = 6 - 3.
Proof.
  apply (proj1 (constrain_lowers_dynamic_dof plain_constraint h2
                  (with_constraints h2 [mkConstraint FixedPosition [H1_] 0 3])
                  (mkConstraint FixedPosition [H1_] 0 3) H1_ H1_ H1_ H1_ None
                  (or_introl eq_refl))).
  reflexivity.
Defined.

Lemma clear_constraints_clears_witness :
  dynamic_dof (clear_constraints wet) = dynamic_dof wet + 1.
Proof.
  apply (proj1 (proj2 (proj2 (proj2 (proj2 (clear_constraints_clears wet)))))).
  reflexivity.
Defined.

Lemma homo_lumo_witness :
  num_electrons water = 10 ∧ 2 * (homo water + 1) = num_electrons water.
Proof.
  split; [reflexivity |].
  apply (proj1 (proj2 (homo_lumo water))). reflexivity.
Defined.


Lemma get_stoichiometry_counts_witness :
  get_stoichiometry element_symbol water false = "H2O1"
  ∧ get_stoichiometry element_symbol water true = "H<sub>2</sub>O<sub>1</sub>".
Proof.
  assert (Hsorted : Sorted String.le ["H"; "O"]).
  { repeat constructor. }
  assert (Hnd : NoDup ["H"; "O"]).
  { apply (bool_decide_unpack _). vm_compute. exact I. }
  assert (Helems : ∀ s, s ∈ ["H"; "O"] ↔ ∃ a, a ∈ atoms water ∧ element_symbol a = s).
  { intros s. split.
    - intros [-> | [-> | []%elem_of_nil]%elem_of_cons]%elem_of_cons.
      + exists H1_. split; [apply elem_of_water_atoms; auto | reflexivity].
      + exists O_. split; [apply elem_of_water_atoms; auto | reflexivity].
    - intros (a & Ha & <-). apply elem_of_water_atoms in Ha as [-> | [-> | ->]].
      + apply list_elem_of_further, list_elem_of_here.
      + apply list_elem_of_here.
      + apply list_elem_of_here. }
  split.
  - exact (get_stoichiometry_counts element_symbol water false ["H"; "O"] Hsorted Hnd Helems).
  - exact (get_stoichiometry_counts element_symbol water true ["H"; "O"] Hsorted Hnd Helems).
Defined.

Lemma get_stoichiometry_order_witness :
  get_stoichiometry element_symbol (with_atoms water [H1_; O_; H2_]) false
  = get_stoichiometry element_symbol water false.
Proof.
  apply (get_stoichiometry_order element_symbol (with_atoms water [H1_; O_; H2_]) water false).
  apply perm_swap.
Defined.


Lemma length_coords_at_origin (atomlist : list Atom) :
  length (coords_at_origin atomlist) = (3 * length atomlist)%nat.
Proof.
  unfold coords_at_origin. induction atomlist as [|a atomlist IH]; [done |].
  change (length ([0; 0; 0] ++ (atomlist ≫= λ _, [0; 0; 0]))
          = (3 * S (length atomlist))%nat).
  rewrite length_app, IH. simpl. lia.
Qed.

Lemma addatoms_outdates_snapshot_witness :
  addatoms hydroxyl_and_hydrogen coords_at_origin default_residue_only (λ _, false)
    hydroxyl_calculated [H2_] = Ok water_outdated
  ∧ (get_property hydroxyl_calculated "potential_energy").1 = Ok (OtherValue 42)
  ∧ (get_property water_outdated "potential_energy").1
    = Raise (not_calculated "potential_energy").
Proof.
  assert (Hrun : addatoms hydroxyl_and_hydrogen coords_at_origin default_residue_only
                   (λ _, false) hydroxyl_calculated [H2_] = Ok water_outdated)
    by (vm_compute; reflexivity).
  split; [exact Hrun |]. split; [reflexivity |].
  destruct (addatoms_outdates_snapshot hydroxyl_and_hydrogen coords_at_origin
              default_residue_only (λ _, false) hydroxyl_calculated [H2_] water_outdated
              Hrun) as (_ & _ & Hnone).
  - discriminate.
  - exact length_coords_at_origin.
  - reflexivity.
  - apply Hnone. discriminate.
Defined.

Lemma sequence_lines_round_trip_witness :
  String.concat "" (sequence_lines "MKVLAAGIVGLCAQ") = "MKVLAAGIVGLCAQ"
  ∧ length (sequence_lines "MKVLAAGIVGLCAQ") = 1%nat.
Proof.
  split.
  - exact (proj1 (sequence_lines_round_trip "MKVLAAGIVGLCAQ")).
  - exact (proj1 (proj2 (sequence_lines_round_trip "MKVLAAGIVGLCAQ"))).
Defined.

Lemma calculate_cached_witness :
  calculate h2_calculated (Some ["potential_energy"]) true true
  = Ok (ReturnProperties (_properties h2_calculated), h2_calculated)
  ∧ calculate h2 (Some ["potential_energy"]) true true = Raise AttributeError.
Proof.
  split.
  - rewrite (proj2 (calculate_cached h2_calculated (Some ["potential_energy"]) true)
               echo_model eq_refl); [vm_compute; reflexivity |].
    intros name Hin. simpl in Hin.
    apply elem_of_cons in Hin as [-> | Hin]; [reflexivity |].
    apply elem_of_cons in Hin as [-> | Hin]; [reflexivity |].
    by apply elem_of_nil in Hin.
  - apply (proj1 (calculate_cached h2 (Some ["potential_energy"]) true)). reflexivity.
Defined.

Lemma LazyClassMap_getitem_path_witness :
  ∃ modname cls,
    PySCF.LazyClassMap_getitem import_by_name getattr_named PySCF.THEORIES (inr "mp2")
    = (import_by_name modname ≫= λ m, getattr_named m cls)
    ∧ ("."%char ∉ String.list_ascii_of_string cls)
    ∧ ("pyscf.mp.MP2" = modname +:+ "." +:+ cls ∨ (modname = "" ∧ cls = "pyscf.mp.MP2")).
Proof.
  apply (proj2 (proj2 (LazyClassMap_getitem_path import_by_name getattr_named
                         PySCF.THEORIES "mp2")) "pyscf.mp.MP2").
  reflexivity.
Defined.

Lemma calculate_forces_KeyError_witness :
  PySCF.calculate import_by_name getattr_named (λ _ _, false) "rhf"
    {[ "forces"; "potential_energy" ]} (λ _, PySCF.Returns 0) 1
  = Some (PySCF.Raises (PySCF.Builtin KeyError))
  ∧ PySCF.calculate import_by_name getattr_named (λ _ _, false) "rhf"
      {[ "potential_energy" ]} (λ _, PySCF.Returns 0) 0
    = Some (PySCF.Returns 0).
Proof.
  split.
  - apply (proj1 (calculate_forces_KeyError import_by_name getattr_named (λ _ _, false)
                    "rhf" {[ "forces"; "potential_energy" ]} (λ _, PySCF.Returns 0) 0)).
    apply elem_of_union. left. by apply elem_of_singleton.
  - apply (proj2 (calculate_forces_KeyError import_by_name getattr_named (λ _ _, false)
                    "rhf" {[ "potential_energy" ]} (λ _, PySCF.Returns 0) 0)).
    intros Hin. apply elem_of_singleton in Hin. discriminate.
Defined.


Lemma converge_settings_witness :
  PySCF.max_cycle fresh_method = 51
  ∧ PySCF.max_cycle (PySCF._converge stubborn_kernel no_density fresh_method None).1.2 = 50.
Proof.
  split; [reflexivity |].
  assert (Hkeeps : ∀ m d,
            PySCF.init_guess (stubborn_kernel m d) = PySCF.init_guess m
            ∧ PySCF.level_shift (stubborn_kernel m d) = PySCF.level_shift m
            ∧ PySCF.max_cycle (stubborn_kernel m d) = PySCF.max_cycle m)
    by (intros m d; repeat split).
  destruct (converge_settings stubborn_kernel no_density fresh_method None Hkeeps)
    as (_ & _ & _ & _ & Hthree).
  destruct (Hthree eq_refl) as (_ & _ & Hcycles).
  exact Hcycles.
Defined.
